(** * Lecture notebooks of mathinmse: the helper routines, embedded and verified

    The repository is a set of Jupyter notebooks.  Four short Python helpers
    carry all of its executable logic:

    - [DFT_slow]                   (Lecture-13-Integral-Transforms, DFT cell)
    - [atomic_func], [aperture]    (Lecture-13, microscopy demonstration)
    - [plot_taylor_approximations] (Lecture-10A-Taylors-Series)

    Conventions of the embedding.

    - float64 arithmetic is idealised as exact arithmetic over [R]; a
      complex128 value is a pair of reals.
    - A Python exception is an [Err] result carrying the exception.
    - numpy arrays are lists (1-D) or lists of rows (2-D).
    - The pyplot "current figure" is an explicit state threaded through the
      plotting helper.
    - sympy's [series] is a black box: a section variable.
    - Where termination is in question, a helper is also given as a machine
      that runs it one statement at a time, and a Python function passed
      to it as a machine of its own, which may run for ever. *)

From Stdlib Require Import Reals Lra Lia ZArith String.
From stdpp Require Import base list gmap.

#[local] Open Scope R_scope.

(** ** Python results *)

Inductive exn : Type :=
  | ValueError (msg : string)
  | TypeError (msg : string)
  | IndexError (msg : string)
  | NameError (name : string).

Inductive result (A : Type) : Type :=
  | Ok (a : A)
  | Err (e : exn).
Arguments Ok {A} a.
Arguments Err {A} e.

Definition rbind {A B} (r : result A) (f : A -> result B) : result B :=
  match r with
  | Ok a => f a
  | Err e => Err e
  end.

Declare Scope result_scope.
Delimit Scope result_scope with result.
Notation "'do' x <- r ; k" := (rbind r (fun x => k))
  (at level 10, x name, r at level 100, k at level 200) : result_scope.

Definition raises {A} (r : result A) : bool :=
  match r with Ok _ => false | Err _ => true end.

(** ** complex128, idealised *)

Module Cplx.

Definition C : Type := R * R.

Definition re (z : C) : R := fst z.
Definition im (z : C) : R := snd z.

Definition RtoC (r : R) : C := (r, 0).
Definition C0 : C := (0, 0).
(** The Python literal [2j]. *)
Definition two_j : C := (0, 2).

Definition Cneg (z : C) : C := (- re z, - im z).
Definition Cadd (a b : C) : C := (re a + re b, im a + im b).
Definition Cmul (a b : C) : C :=
  (re a * re b - im a * im b, re a * im b + im a * re b).
(** complex / real, as numpy divides a complex array by an integer. *)
Definition Cdivr (a : C) (r : R) : C := (re a / r, im a / r).
(** [np.exp] on a complex number. *)
Definition Cexp (z : C) : C := (exp (re z) * cos (im z), exp (re z) * sin (im z)).

Definition Csum (l : list C) : C := foldr Cadd C0 l.

End Cplx.
Import Cplx.

(** ** The numpy fragment used by the notebooks *)

Module Np.

(** A Python number: [int]/[float] on one side, [complex] on the other. *)
Inductive scalar : Type :=
  | SReal (r : R)
  | SComplex (z : C).

(** What a caller can hand to [np.asarray]: a bare number, a list or
    tuple of numbers, or a 1-D ndarray of dtype float64 or complex128. *)
Inductive array_like : Type :=
  | PyNumber (s : scalar)
  | PySeq (l : list scalar)
  | NdFloat (l : list R)
  | NdComplex (l : list C).

(** A float64 ndarray of dimension 0 or 1. *)
Inductive farray : Type :=
  | F0 (r : R)
  | F1 (l : list R).

Definition shape (a : farray) : list nat :=
  match a with
  | F0 _ => []
  | F1 l => [length l]
  end.

Definition data (a : farray) : list R :=
  match a with
  | F0 r => [r]
  | F1 l => l
  end.

(** [float(s)] for a Python number: a [complex] is refused. *)
Definition to_float (s : scalar) : result R :=
  match s with
  | SReal r => Ok r
  | SComplex _ => Err (TypeError "can't convert complex to float")
  end.

Fixpoint to_floats (l : list scalar) : result (list R) :=
  match l with
  | [] => Ok []
  | s :: l' =>
      (do r <- to_float s;
       do rs <- to_floats l';
       Ok (r :: rs))%result
  end.

(** [np.asarray(x, dtype=float)].  Python numbers are converted one by
    one with [float]; an ndarray is cast, and the cast of a complex128
    array keeps the real parts (numpy emits a ComplexWarning and goes on). *)
Definition asarray_float (x : array_like) : result farray :=
  match x with
  | PyNumber s => (do r <- to_float s; Ok (F0 r))%result
  | PySeq l => (do rs <- to_floats l; Ok (F1 rs))%result
  | NdFloat l => Ok (F1 l)
  | NdComplex l => Ok (F1 (map re l))
  end.

(** [t[i]] on the shape tuple. *)
Definition tuple_get (t : list nat) (i : nat) : result nat :=
  match t !! i with
  | Some v => Ok v
  | None => Err (IndexError "tuple index out of range")
  end.

(** [np.arange(N)] for a non-negative integer [N]. *)
Definition arange (N : nat) : list nat := seq 0 N.

(** [n.reshape((N, 1))]: a column. *)
Definition reshape_col {A} (n : list A) : list (list A) := map (fun a => [a]) n.

(** complex scalar times an integer array of shape (N, 1). *)
Definition scal_mul_col (c : C) (k : list (list nat)) : list (list C) :=
  map (map (fun a => Cmul c (RtoC (INR a)))) k.

(** Broadcast product of a complex (N, 1) column with an integer (N,)
    row: entry (i, j) is [k[i][0] * n[j]]. *)
Definition bcast_mul (k : list (list C)) (n : list nat) : list (list C) :=
  map (fun ki => map (fun nj => Cmul (hd C0 ki) (RtoC (INR nj))) n) k.

Definition mat_div (m : list (list C)) (N : nat) : list (list C) :=
  map (map (fun z => Cdivr z (INR N))) m.

Definition mat_exp (m : list (list C)) : list (list C) :=
  map (map Cexp) m.

(** [np.dot(M, x)] for a complex matrix and a float vector. *)
Definition dot_row (row : list C) (x : list R) : C :=
  Csum (zip_with (fun m xn => Cmul m (RtoC xn)) row x).

Definition dot (M : list (list C)) (x : list R) : list C :=
  map (fun row => dot_row row x) M.

End Np.
Import Np.

(** ** DFT_slow *)

(** [def DFT_slow(x)], statement by statement. *)
Definition DFT_slow (x : array_like) : result (list C) :=
  (do x <- asarray_float x;
   do N <- tuple_get (shape x) 0;
   let n := arange N in
   let k := reshape_col n in
   let M := mat_exp (mat_div (bcast_mul (scal_mul_col (Cmul (Cneg two_j) (RtoC PI)) k) n) N) in
   Ok (dot M (data x)))%result.

(** The transform as the lecture states it: component [k] is the sum over
    [n] of [x[n] * exp(-2 pi i k n / N)]. *)
Definition twiddle (N k n : nat) : C :=
  Cexp (0, - (2 * PI * INR k * INR n / INR N)).

Definition DFT_textbook (xs : list R) : list C :=
  let N := length xs in
  map (fun k => Csum (map (fun n => Cmul (RtoC (nth n xs 0)) (twiddle N k n)) (seq 0 N)))
      (seq 0 N).

(** A real-valued 1-D input holding the samples [xs]. *)
Definition real_1d (x : array_like) (xs : list R) : Prop :=
  x = NdFloat xs \/ x = PySeq (map SReal xs).

(** ** The microscopy demonstration: atomic_func, aperture and the mask *)

(** [def atomic_func(x, y)], on one pair of coordinates. *)
Definition atomic_func (x y : R) : R :=
  let param := 64 in
  (1 + sin (4 * (x + y) * 2 * PI / param)) * (1 + sin (2 * (x - 2 * y) * 2 * PI / param)) / 4.

#[local] Instance Rgt_decision : RelDecision Rgt := Rgt_dec.

(** [def aperture(X, Y, xoffset, yoffset, size)], on one pair of coordinates. *)
Definition aperture (X Y xoffset yoffset size : R) : bool :=
  bool_decide ((X - xoffset) ^ 2 + (Y - yoffset) ^ 2 > size ^ 2).

Module Grid.

(** 2-D arrays are lists of rows; [lookup2 a i j] is [a[i, j]]. *)
Definition lookup2 {A} (a : list (list A)) (i j : nat) : option A :=
  row ← a !! i; row !! j.

Definition has_shape {A} (a : list (list A)) (rows cols : nat) : bool :=
  bool_decide (length a = rows) && forallb (fun row => bool_decide (length row = cols)) a.

(** [np.arange(0.0, stop, 1.0)] for an integral [stop]. *)
Definition arange_f (stop : nat) : list R := map INR (seq 0 stop).

(** [np.meshgrid(x, y)]: both results have [len(y)] rows and [len(x)]
    columns; [X[i, j] = x[j]] and [Y[i, j] = y[i]]. *)
Definition meshgrid (x y : list R) : list (list R) * list (list R) :=
  (map (fun _ => x) y, map (fun yi => map (fun _ => yi) x) y).

(** A helper applied to whole arrays works entry by entry. *)
Definition map2 {A B D} (f : A -> B -> D) (a : list (list A)) (b : list (list B))
  : list (list D) :=
  zip_with (zip_with f) a b.

(** [np.where(B)] for a 2-D Boolean array: the positions of its true
    entries, row by row. *)
Definition where_row (i : nat) (row : list bool) : list (nat * nat) :=
  map (fun j => (i, j)) (filter (fun j => row !! j = Some true) (seq 0 (length row))).

Definition np_where (B : list (list bool)) : list (nat * nat) :=
  concat (imap where_row B).

(** [P[i, j] = v]; an index outside the array is an IndexError. *)
Definition set_item {A} (P : list (list A)) (ij : nat * nat) (v : A)
  : result (list (list A)) :=
  match lookup2 P ij.1 ij.2 with
  | Some _ => Ok (alter (fun row => <[ij.2 := v]> row) ij.1 P)
  | None => Err (IndexError "index is out of bounds")
  end.

(** [P[idx] = v] for the index arrays [idx] that [np.where] returns. *)
Fixpoint set_items {A} (P : list (list A)) (idx : list (nat * nat)) (v : A)
  : result (list (list A)) :=
  match idx with
  | [] => Ok P
  | ij :: idx' => (do P' <- set_item P ij v; set_items P' idx' v)%result
  end.

End Grid.
Import Grid.

(** The cell that builds the processed spectrum [P] out of the spectrum
    [K = fftshift(fft2(Z))]; the library transform that produces [K] stays
    outside, so [K] is the input. *)
Definition mask_spectrum (K : list (list C)) : result (list (list C)) :=
  let x := arange_f 256 in
  let y := arange_f 256 in
  let '(X, Y) := meshgrid x y in
  let P := K in
  set_items P
    (np_where (map2 andb (map2 (fun X Y => aperture X Y 128 128 3) X Y)
                         (map2 (fun X Y => aperture X Y 150 128 3) X Y)))
    C0.


(** Strictly outside the circle of centre [(cx, cy)] and radius [r]. *)
Definition outside_circle (cx cy r : R) (px py : R) : Prop :=
  (px - cx) ^ 2 + (py - cy) ^ 2 > r ^ 2.

(** ** The sympy fragment used by the plotting helper *)

Module Sympy.

Inductive ufun : Type := Fsin | Fcos | Fexp.

(** Expressions.  [Integer], [Rational] and [Float] are the subclasses of
    [sympy.numbers.Number]; [Pi] and [E1] ([sp.pi], [sp.E]) are
    [NumberSymbol]s, which are not; [Order] is the O-term a series ends
    with. *)
Inductive Expr : Type :=
  | Integer (z : Z)
  | Rational (p : Z) (q : positive)
  | Float (r : R)
  | Pi
  | E1
  | Symbol (name : string)
  | Add (a b : Expr)
  | Mul (a b : Expr)
  | Pow (a : Expr) (n : Z)
  | Apply (f : ufun) (a : Expr)
  | Order (a : Expr).

(** [isinstance(e, sp.numbers.Number)]. *)
Definition is_Number (e : Expr) : bool :=
  match e with
  | Integer _ | Rational _ _ | Float _ => true
  | _ => false
  end.

(** [float(e.evalf())] for a [Number]. *)
Definition number_value (e : Expr) : R :=
  match e with
  | Integer z => IZR z
  | Rational p q => IZR p / IZR (Zpos q)
  | Float r => r
  | _ => 0
  end.

(** [e.removeO()]: the O-terms of a sum are dropped; an expression that is
    nothing but an O-term becomes zero. *)
Fixpoint strip_O (e : Expr) : option Expr :=
  match e with
  | Order _ => None
  | Add a b =>
      match strip_O a, strip_O b with
      | Some a', Some b' => Some (Add a' b')
      | Some a', None => Some a'
      | None, Some b' => Some b'
      | None, None => None
      end
  | _ => Some e
  end.

Definition removeO (e : Expr) : Expr := default (Integer 0) (strip_O e).

(** An expression without symbols and without O-terms: a constant. *)
Fixpoint is_constant (e : Expr) : bool :=
  match e with
  | Integer _ | Rational _ _ | Float _ | Pi | E1 => true
  | Symbol _ | Order _ => false
  | Add a b | Mul a b => is_constant a && is_constant b
  | Pow a _ => is_constant a
  | Apply _ a => is_constant a
  end.

(** The value of an expression at [x = xv], as mathematics has it. *)
Fixpoint value_at (xv : R) (e : Expr) : R :=
  match e with
  | Integer z => IZR z
  | Rational p q => IZR p / IZR (Zpos q)
  | Float r => r
  | Pi => PI
  | E1 => exp 1
  | Symbol _ => xv
  | Add a b => value_at xv a + value_at xv b
  | Mul a b => value_at xv a * value_at xv b
  | Pow a n => powerRZ (value_at xv a) n
  | Apply Fsin a => sin (value_at xv a)
  | Apply Fcos a => cos (value_at xv a)
  | Apply Fexp a => exp (value_at xv a)
  | Order _ => 0
  end.

End Sympy.
Import Sympy.

(** ** numpy values as the lambdified functions see them *)

Module NpVal.

(** A float scalar or a 1-D float array. *)
Inductive npval : Type :=
  | Scalar (r : R)
  | Array (l : list R).

Definition lift1 (f : R -> R) (v : npval) : npval :=
  match v with
  | Scalar r => Scalar (f r)
  | Array l => Array (map f l)
  end.

(** Broadcasting of a binary operation. *)
Definition lift2 (f : R -> R -> R) (u v : npval) : npval :=
  match u, v with
  | Scalar a, Scalar b => Scalar (f a b)
  | Scalar a, Array l => Array (map (f a) l)
  | Array l, Scalar b => Array (map (fun a => f a b) l)
  | Array l, Array l' => Array (zip_with f l l')
  end.

Definition ufun_R (f : ufun) : R -> R :=
  match f with Fsin => sin | Fcos => cos | Fexp => exp end.

(** [sp.lambdify(xs, e, modules=['numpy'])] applied to [x], where [xs] is
    the symbol named [xname]: the printed expression is evaluated by
    numpy, so a sub-expression without [xs] is a scalar and only the
    operations that meet [x] become arrays.  Another symbol, or an O-term,
    is a name the generated function does not know. *)
Fixpoint lambdify (xname : string) (e : Expr) (x : npval) : result npval :=
  match e with
  | Integer z => Ok (Scalar (IZR z))
  | Rational p q => Ok (Scalar (IZR p / IZR (Zpos q)))
  | Float r => Ok (Scalar r)
  | Pi => Ok (Scalar PI)
  | E1 => Ok (Scalar (exp 1))
  | Symbol s =>
      if decide (s = xname) then Ok x
      else Err (NameError s)
  | Add a b =>
      (do u <- lambdify xname a x; do v <- lambdify xname b x; Ok (lift2 Rplus u v))%result
  | Mul a b =>
      (do u <- lambdify xname a x; do v <- lambdify xname b x; Ok (lift2 Rmult u v))%result
  | Pow a n =>
      (do u <- lambdify xname a x; Ok (lift1 (fun r => powerRZ r n) u))%result
  | Apply f a =>
      (do u <- lambdify xname a x; Ok (lift1 (ufun_R f) u))%result
  | Order _ => Err (NameError "O")
  end.

(** [np.linspace(start, stop, num)]. *)
Definition linspace (start stop : R) (num : nat) : list R :=
  match num with
  | 0%nat => []
  | 1%nat => [start]
  | _ => map (fun i => start + INR i * ((stop - start) / INR (num - 1))) (seq 0 num)
  end.

(** [y = np.zeros_like(x); y.fill(c)] for a float array [x]. *)
Definition filled_like (x : list R) (c : R) : list R := map (fun _ => c) x.

End NpVal.
Import NpVal.

(** ** pyplot: the current figure as explicit state *)

Module Pyplot.

(** The legend entries the helper builds: [str(fx)] for the function, and
    the order with [latex(app)] for an approximation. *)
Inductive label : Type :=
  | LabelStr (fx : Expr)
  | LabelOrder (order : Z) (app : Expr).

Record curve : Type := Curve {
  xdata : list R;
  ydata : list R;
  clabel : label;
  lw : option R
}.

(** What pyplot remembers between two calls. *)
Record figure : Type := Figure {
  lines : list curve;
  ylim : option (R * R);
  grid_on : bool;
  legend_alpha : option R
}.

(** A computation that may raise and that reads and writes the figure.
    What was drawn before an exception stays drawn. *)
Definition M (A : Type) : Type := figure -> result A * figure.

#[export] Instance M_ret : MRet M := fun A a fig => (Ok a, fig).
#[export] Instance M_bind : MBind M := fun A B f m fig =>
  match m fig with
  | (Ok a, fig') => f a fig'
  | (Err e, fig') => (Err e, fig')
  end.

Definition raise {A} (e : exn) : M A := fun fig => (Err e, fig).
Definition lift {A} (r : result A) : M A := fun fig => (r, fig).

Definition as_1d (v : npval) : list R :=
  match v with
  | Scalar r => [r]
  | Array l => l
  end.

(** [plt.plot(x, y, label=..., lw=...)]: one more line on the current
    axes, unless the two data arrays differ in length. *)
Definition plot (x : list R) (y : npval) (l : label) (w : option R) : M unit :=
  fun fig =>
    if decide (length x = length (as_1d y)) then
      (Ok (), Figure (lines fig ++ [Curve x (as_1d y) l w])
                     (ylim fig) (grid_on fig) (legend_alpha fig))
    else
      (Err (ValueError "x and y must have same first dimension"), fig).

(** [plt.ylim(ymin, ymax)]. *)
Definition set_ylim (r : R * R) : M unit :=
  fun fig => (Ok (), Figure (lines fig) (Some r) (grid_on fig) (legend_alpha fig)).

(** [plt.grid()] without arguments toggles the grid. *)
Definition grid : M unit :=
  fun fig => (Ok (), Figure (lines fig) (ylim fig) (negb (grid_on fig)) (legend_alpha fig)).

(** [plt.legend(loc='best').get_frame().set_alpha(a)]. *)
Definition legend (a : R) : M unit :=
  fun fig => (Ok (), Figure (lines fig) (ylim fig) (grid_on fig) (Some a)).

Definition empty_figure : figure := Figure [] None false None.

End Pyplot.
Import Pyplot.

(** ** plot_taylor_approximations *)

(** The objects a caller may pass as [func]. *)
Inductive pyobj : Type :=
  | PyFunction (f : Expr -> Expr)
  | PyFloat (r : R)
  | PyNone.

Definition callable (o : pyobj) : bool :=
  match o with
  | PyFunction _ => true
  | _ => false
  end.

Definition call (o : pyobj) (a : Expr) : result Expr :=
  match o with
  | PyFunction f => Ok (f a)
  | _ => Err (TypeError "object is not callable")
  end.

(** The [xrange] argument: a list or tuple of bounds (its entries as
    [float] reads them), or the array of sample points itself. *)
Inductive xrange_arg : Type :=
  | XBounds (l : list R)
  | XArray (a : list R).

(** [l[i]] on a Python sequence or a 1-D array. *)
Definition index (l : list R) (i : nat) : result R :=
  match l !! i with
  | Some v => Ok v
  | None => Err (IndexError "index out of range")
  end.

Section PlotTaylor.

(** [fx.series(xs, x0, n=order)], sympy's series expansion. *)
Variable series : Expr -> Expr -> Expr -> Z -> Expr.

(** The body of [for order in orders]. *)
Definition loop_body (x : list R) (xs fx x0 : Expr) (apps : gmap Z Expr) (order : Z)
  : M (gmap Z Expr) :=
  let app := removeO (series fx xs x0 order) in
  let apps := <[order := app]> apps in
  y ← (if is_Number app
       then mret (Array (filled_like x (number_value app)))
       else lift (lambdify "x" app (Array x)));
  plot x y (LabelOrder order app) None;;
  mret apps.

Fixpoint for_orders (x : list R) (xs fx x0 : Expr) (orders : list Z) (apps : gmap Z Expr)
  : M (gmap Z Expr) :=
  match orders with
  | [] => mret apps
  | order :: orders' =>
      apps' ← loop_body x xs fx x0 apps order;
      for_orders x xs fx x0 orders' apps'
  end.

(** [def plot_taylor_approximations(func, x0=None, orders=(2, 4),
    xrange=(0,1), yrange=None, npts=200)]. *)
Definition plot_taylor_approximations
    (func : pyobj) (x0 : option Expr) (orders : list Z)
    (xrange : xrange_arg) (yrange : option (R * R)) (npts : nat) : M unit :=
  if negb (callable func) then raise (ValueError "func must be callable") else
  x ← lift (match xrange with
            | XBounds l =>
                (do a <- index l 0; do b <- index l 1; Ok (linspace a b npts))%result
            | XArray a => Ok a
            end);
  x0 ← match x0 with
       | None => lift (do v <- index x 0; Ok (Float v))%result
       | Some v => mret v
       end;
  let xs := Symbol "x" in
  fx ← lift (call func xs);
  let f := lambdify "x" fx in
  y ← lift (f (Array x));
  plot x y (LabelStr fx) (Some 2);;
  apps ← for_orders x xs fx x0 orders ∅;
  match yrange with
  | Some r => set_ylim r
  | None => mret ()
  end;;
  grid;;
  legend 0.8.

End PlotTaylor.

(** sympy's [series] in the symbol [xs] about 0 on the expressions [xs + c]
    and [c + xs] with [c] a constant: the expression itself from order 2
    on, [c + O(xs)] at order 1, [O(1)] below.  Other expressions are outside
    this table and are returned as they are. *)
Definition series_affine (e xs x0 : Expr) (n : Z) : Expr :=
  let truncate c :=
    if (n <=? 0)%Z then Order (Integer 1)
    else if (n =? 1)%Z then Add c (Order xs)
    else e in
  match xs, x0, e with
  | Symbol sx, Integer 0, Add (Symbol s) c =>
      if String.eqb s sx && is_constant c then truncate c else e
  | Symbol sx, Integer 0, Add c (Symbol s) =>
      if String.eqb s sx && is_constant c then truncate c else e
  | _, _, _ => e
  end.

(** ** What a plotting computation does to the figure *)

(** The writes of a computation, apart from the figure they land on: the
    lines appended, the y-limits and legend set last, and whether the grid
    was toggled an odd number of times. *)
Record effect : Type := Effect {
  new_lines : list curve;
  new_ylim : option (R * R);
  toggles : bool;
  new_legend : option R
}.

Definition no_effect : effect := Effect [] None false None.

Definition apply_effect (e : effect) (fig : figure) : figure :=
  Figure (lines fig ++ new_lines e)
         (match new_ylim e with Some r => Some r | None => ylim fig end)
         (xorb (toggles e) (grid_on fig))
         (match new_legend e with Some a => Some a | None => legend_alpha fig end).

Definition seq_effect (e1 e2 : effect) : effect :=
  Effect (new_lines e1 ++ new_lines e2)
         (match new_ylim e2 with Some r => Some r | None => new_ylim e1 end)
         (xorb (toggles e2) (toggles e1))
         (match new_legend e2 with Some a => Some a | None => new_legend e1 end).

(** [m] ends with [out] and performs the writes [e], whatever the figure
    held before. *)
Definition writes {A} (m : M A) (out : result A) (e : effect) : Prop :=
  forall fig, m fig = (out, apply_effect e fig).

(** The exception of the helper's input check. *)
Definition not_callable_error : exn := ValueError "func must be callable".

(** [wp m Q]: the run of [m] ends with an outcome and writes that satisfy
    [Q], the same on every figure. *)
Definition wp {A} (m : M A) (Q : result A -> effect -> Prop) : Prop :=
  exists out e, writes m out e /\ Q out e.

(** The writes of a run of the loop: only lines, one per finished pass. *)
Definition loop_writes {A} (out : result A) (e : effect) (passes : nat) : Prop :=
  new_ylim e = None /\ toggles e = false /\ new_legend e = None /\
  out <> Err not_callable_error /\
  (length (new_lines e) <= passes)%nat /\
  (forall a, out = Ok a -> length (new_lines e) = passes).

(** What a run of the helper on a callable [func] can end with. *)
Definition callable_run (orders : list Z) (yrange : option (R * R))
    (out : result ()) (e : effect) : Prop :=
  out <> Err not_callable_error /\
  (length (new_lines e) <= S (length orders))%nat /\
  (out = Ok () ->
     length (new_lines e) = S (length orders) /\ new_ylim e = yrange /\
     toggles e = true /\ new_legend e = Some 0.8).

(** ** The helpers, run statement by statement *)

(** A run of Python code as the interpreter makes it: from a state, one
    step either leads to the next state or ends the run with an outcome.
    Whether a run ends is then a question, not a fact of the notation. *)
Section StepByStep.

Context {St A : Type}.
Variable step : St -> St + A.

(** Where the run is after [n] steps, or what it ended with before. *)
Fixpoint steps (n : nat) (s : St) : St + A :=
  match n with
  | O => inl s
  | S n' =>
      match step s with
      | inl s' => steps n' s'
      | inr a => inr a
      end
  end.

(** The outcome of the run, when it ends within [n] steps. *)
Definition run (n : nat) (s : St) : option A :=
  match steps n s with
  | inr a => Some a
  | inl _ => None
  end.

(** The run from [s] is at [t] after at most [n] steps. *)
Definition within (n : nat) (s : St) (t : St + A) : Prop :=
  exists k, (k <= n)%nat /\ steps k s = t.

End StepByStep.

(** *** DFT_slow *)

(** The program points of [DFT_slow], each with the variables bound so far. *)
Inductive DFT_frame : Type :=
  | DFT_asarray (x : array_like)
      (* x = np.asarray(x, dtype=float) *)
  | DFT_shape (x : farray)
      (* N = x.shape[0] *)
  | DFT_arange (x : farray) (N : nat)
      (* n = np.arange(N) *)
  | DFT_reshape (x : farray) (N : nat) (n : list nat)
      (* k = n.reshape((N, 1)) *)
  | DFT_matrix (x : farray) (N : nat) (n : list nat) (k : list (list nat))
      (* M = np.exp(-2j * np.pi * k * n / N) *)
  | DFT_return (x : farray) (M : list (list C)).
      (* return np.dot(M, x) *)

Definition DFT_step (s : DFT_frame) : DFT_frame + result (list C) :=
  match s with
  | DFT_asarray x =>
      match asarray_float x with
      | Ok x' => inl (DFT_shape x')
      | Err e => inr (Err e)
      end
  | DFT_shape x =>
      match tuple_get (shape x) 0 with
      | Ok N => inl (DFT_arange x N)
      | Err e => inr (Err e)
      end
  | DFT_arange x N => inl (DFT_reshape x N (arange N))
  | DFT_reshape x N n => inl (DFT_matrix x N n (reshape_col n))
  | DFT_matrix x N n k =>
      inl (DFT_return x
             (mat_exp (mat_div (bcast_mul (scal_mul_col (Cmul (Cneg two_j) (RtoC PI)) k) n) N)))
  | DFT_return x M => inr (Ok (dot M (data x)))
  end.

(** *** plot_taylor_approximations *)

(** The body of a Python function as the interpreter runs it: the state it
    is entered in on an argument, and its steps, the last of which returns
    a value or raises.  The function is taken not to draw. *)
Record code : Type := Code {
  cstate : Type;
  enter : Expr -> cstate;
  cstep : cstate -> cstate + result Expr
}.

(** What a caller may pass as [func]: a function given by its code, or one
    of the objects of [pyobj], whose functions return at once. *)
Inductive pyarg : Type :=
  | PyDef (body : code)
  | PyOther (o : pyobj).

(** [callable(func)]. *)
Definition callable_arg (func : pyarg) : bool :=
  match func with
  | PyDef _ => true
  | PyOther o => callable o
  end.

(** [def f(x): while True: pass]. *)
Definition forever : code := Code unit (fun _ => tt) (fun _ => inl tt).

(** [def f(x): for i in range(n): pass; return e(x)]: [n] passes, then the
    return. *)
Definition delayed (n : nat) (e : Expr -> Expr) : code :=
  Code (nat * Expr) (fun a => (n, a))
       (fun s => match s with
                 | (S i, a) => inl (i, a)
                 | (O, a) => inr (Ok (e a))
                 end).

(** The variables of the helper once [fx] is bound. *)
Record locals : Type := Locals {
  v_x : list R;
  v_x0 : Expr;
  v_xs : Expr;
  v_fx : Expr
}.

(** The program points of [plot_taylor_approximations]: one for each
    statement, shown beside it, with the variables bound when the run is
    about to execute it.  [In_func] is the run inside the call [func(xs)];
    [For] carries what the iterator over [orders] has left. *)
Inductive frame : Type :=
  | If_callable
      (* if not callable(func): *)
  | Raise_callable
      (* raise ValueError('func must be callable') *)
  | If_xrange
      (* if isinstance(xrange, (list, tuple)): *)
  | Linspace (l : list R)
      (* x = np.linspace(float(xrange[0]), float(xrange[1]), npts) *)
  | Take_xrange (a : list R)
      (* x = xrange *)
  | If_x0 (x : list R)
      (* if x0 is None: x0 = x[0] *)
  | Make_symbol (x : list R) (x0 : Expr)
      (* xs = sp.Symbol('x') *)
  | Call_func (x : list R) (x0 xs : Expr)
      (* fx = func(xs) *)
  | In_func (x : list R) (x0 xs : Expr) (body : code) (c : cstate body)
  | Lambdify_fx (v : locals)
      (* f = sp.lambdify(xs, fx, modules=['numpy']) *)
  | Plot_fx (v : locals) (f : npval -> result npval)
      (* plt.plot(x, f(x), label=str(fx), lw=2) *)
  | New_apps (v : locals)
      (* apps = {} *)
  | For (v : locals) (apps : gmap Z Expr) (rest : list Z)
      (* for order in orders: *)
  | Series (v : locals) (apps : gmap Z Expr) (rest : list Z) (order : Z)
      (* app = fx.series(xs, x0, n=order).removeO() *)
  | Store_app (v : locals) (apps : gmap Z Expr) (rest : list Z) (order : Z) (app : Expr)
      (* apps[order] = app *)
  | If_number (v : locals) (apps : gmap Z Expr) (rest : list Z) (order : Z) (app : Expr)
      (* if isinstance(app, sp.numbers.Number): *)
  | Zeros_like (v : locals) (apps : gmap Z Expr) (rest : list Z) (order : Z) (app : Expr)
      (* y = np.zeros_like(x) *)
  | Fill (v : locals) (apps : gmap Z Expr) (rest : list Z) (order : Z) (app : Expr)
         (y : list R)
      (* y.fill(app.evalf()) *)
  | Lambdify_app (v : locals) (apps : gmap Z Expr) (rest : list Z) (order : Z) (app : Expr)
      (* fa = sp.lambdify(xs, app, modules=['numpy']) *)
  | Call_fa (v : locals) (apps : gmap Z Expr) (rest : list Z) (order : Z) (app : Expr)
            (fa : npval -> result npval)
      (* y = fa(x) *)
  | Latex (v : locals) (apps : gmap Z Expr) (rest : list Z) (order : Z) (app : Expr)
          (y : npval)
      (* tex = sp.latex(app).replace('$', '') *)
  | Plot_app (v : locals) (apps : gmap Z Expr) (rest : list Z) (order : Z) (app : Expr)
             (y : npval) (tex : Expr)
      (* plt.plot(x, y, label=r'$n=%s:\, %s$' % (order, tex)) *)
  | If_yrange
      (* if yrange is not None: *)
  | Plt_ylim (r : R * R)
      (* plt.ylim( *yrange) *)
  | Plt_grid
      (* plt.grid() *)
  | Plt_legend.
      (* plt.legend(loc='best').get_frame().set_alpha(0.8) *)

(** A state of the run: the program point and the current figure.  The
    run ends by falling off the end of the function or by an exception. *)
Definition config : Type := frame * figure.
Definition outcome : Type := result unit * figure.

(** Go on at [next] with the value of [r], or end with its exception. *)
Definition proceed {B} (r : result B) (fig : figure) (next : B -> frame) : config + outcome :=
  match r with
  | Ok b => inl (next b, fig)
  | Err e => inr (Err e, fig)
  end.

(** Make the pyplot call [m], then go on at [next]. *)
Definition exec (m : M unit) (fig : figure) (next : frame) : config + outcome :=
  match m fig with
  | (Ok _, fig') => inl (next, fig')
  | (Err e, fig') => inr (Err e, fig')
  end.

Section PlotTaylorSteps.

Variable series : Expr -> Expr -> Expr -> Z -> Expr.
Variables (func : pyarg) (x0 : option Expr) (orders : list Z).
Variables (xrange : xrange_arg) (yrange : option (R * R)) (npts : nat).

Definition plot_taylor_step (s : config) : config + outcome :=
  let (pc, fig) := s in
  match pc with
  | If_callable =>
      if negb (callable_arg func) then inl (Raise_callable, fig) else inl (If_xrange, fig)
  | Raise_callable => inr (Err (ValueError "func must be callable"), fig)
  | If_xrange =>
      match xrange with
      | XBounds l => inl (Linspace l, fig)
      | XArray a => inl (Take_xrange a, fig)
      end
  | Linspace l =>
      proceed (do a <- index l 0; do b <- index l 1; Ok (linspace a b npts))%result fig If_x0
  | Take_xrange a => inl (If_x0 a, fig)
  | If_x0 x =>
      match x0 with
      | None => proceed (do v <- index x 0; Ok (Float v))%result fig (Make_symbol x)
      | Some v => inl (Make_symbol x v, fig)
      end
  | Make_symbol x x0 => inl (Call_func x x0 (Symbol "x"), fig)
  | Call_func x x0 xs =>
      match func with
      | PyDef body => inl (In_func x x0 xs body (enter body xs), fig)
      | PyOther o => proceed (call o xs) fig (fun fx => Lambdify_fx (Locals x x0 xs fx))
      end
  | In_func x x0 xs body c =>
      match cstep body c with
      | inl c' => inl (In_func x x0 xs body c', fig)
      | inr r => proceed r fig (fun fx => Lambdify_fx (Locals x x0 xs fx))
      end
  | Lambdify_fx v => inl (Plot_fx v (lambdify "x" (v_fx v)), fig)
  | Plot_fx v f =>
      match f (Array (v_x v)) with
      | Ok y => exec (plot (v_x v) y (LabelStr (v_fx v)) (Some 2)) fig (New_apps v)
      | Err e => inr (Err e, fig)
      end
  | New_apps v => inl (For v ∅ orders, fig)
  | For v apps rest =>
      match rest with
      | order :: rest' => inl (Series v apps rest' order, fig)
      | [] => inl (If_yrange, fig)
      end
  | Series v apps rest order =>
      inl (Store_app v apps rest order (removeO (series (v_fx v) (v_xs v) (v_x0 v) order)), fig)
  | Store_app v apps rest order app =>
      inl (If_number v (<[order := app]> apps) rest order app, fig)
  | If_number v apps rest order app =>
      if is_Number app then inl (Zeros_like v apps rest order app, fig)
      else inl (Lambdify_app v apps rest order app, fig)
  | Zeros_like v apps rest order app =>
      inl (Fill v apps rest order app (filled_like (v_x v) 0), fig)
  | Fill v apps rest order app y =>
      inl (Latex v apps rest order app (Array (filled_like y (number_value app))), fig)
  | Lambdify_app v apps rest order app =>
      inl (Call_fa v apps rest order app (lambdify "x" app), fig)
  | Call_fa v apps rest order app fa =>
      proceed (fa (Array (v_x v))) fig (Latex v apps rest order app)
  | Latex v apps rest order app y => inl (Plot_app v apps rest order app y app, fig)
  | Plot_app v apps rest order app y tex =>
      exec (plot (v_x v) y (LabelOrder order tex) None) fig (For v apps rest)
  | If_yrange =>
      match yrange with
      | Some r => inl (Plt_ylim r, fig)
      | None => inl (Plt_grid, fig)
      end
  | Plt_ylim r => exec (set_ylim r) fig Plt_grid
  | Plt_grid => exec grid fig Plt_legend
  | Plt_legend => inr (legend 0.8 fig)
  end.

End PlotTaylorSteps.

(** What the helper binds before it calls [func]: the sample points and
    the expansion point. *)
Definition bound_arguments (x0 : option Expr) (xrange : xrange_arg) (npts : nat)
  : result (list R * Expr) :=
  (do x <- match xrange with
           | XBounds l => (do a <- index l 0; do b <- index l 1; Ok (linspace a b npts))
           | XArray a => Ok a
           end;
   do c <- match x0 with
           | None => (do v <- index x 0; Ok (Float v))
           | Some v => Ok v
           end;
   Ok (x, c))%result.

(** What the helper does once [fx = func(xs)] is bound. *)
Definition after_call (series : Expr -> Expr -> Expr -> Z -> Expr)
    (x : list R) (x0 fx : Expr) (orders : list Z) (yrange : option (R * R)) : M unit :=
  y ← lift (lambdify "x" fx (Array x));
  plot x y (LabelStr fx) (Some 2);;
  apps ← for_orders series x (Symbol "x") fx x0 orders ∅;
  match yrange with
  | Some r => set_ylim r
  | None => mret ()
  end;;
  grid;;
  legend 0.8.

(** * More of the notebooks *)

(** ** Vocabulary for the transform *)

Definition Cconj (z : C) : C := (re z, - im z).
Definition Cscale (a : R) (z : C) : C := (a * re z, a * im z).
Definition Cmod (z : C) : R := sqrt (re z ^ 2 + im z ^ 2).

Definition Rsum (l : list R) : R := foldr Rplus 0 l.

Definition is_real (s : scalar) : bool :=
  match s with
  | SReal _ => true
  | SComplex _ => false
  end.

(** The number of entries of a 1-D input. *)
Definition entries (x : array_like) : nat :=
  match x with
  | PyNumber _ => 0
  | PySeq l => length l
  | NdFloat l => length l
  | NdComplex l => length l
  end.

(** ** The rest of the microscopy cells *)

(** The image array [Z = atomic_func(X, Y)] on the 256 x 256 grid. *)
Definition atomic_image : list (list R) :=
  let x := arange_f 256 in
  let y := arange_f 256 in
  let '(X, Y) := meshgrid x y in
  map2 atomic_func X Y.

(** [plt.Circle(xy, radius, ...)]: an outline drawn over an image. *)
Record Circle : Type := mkCircle {
  circle_x : R;
  circle_y : R;
  circle_radius : R
}.

(** [aperture1] and [aperture2] of the plotting cell, drawn with radius
    [3**2] over the spectrum. *)
Definition aperture1 : Circle := mkCircle 128 128 (3 ^ 2).
Definition aperture2 : Circle := mkCircle 150 128 (3 ^ 2).

(** The point [(px, py)] lies inside or on the outline. *)
Definition inside_outline (c : Circle) (px py : R) : Prop :=
  (px - circle_x c) ^ 2 + (py - circle_y c) ^ 2 <= circle_radius c ^ 2.

(** ** What the plotting helper is expected to draw *)

(** The sample points, as the helper takes them from [xrange]. *)
Definition sample_points (xrange : xrange_arg) (npts : nat) : result (list R) :=
  match xrange with
  | XBounds l => (do a <- index l 0; do b <- index l 1; Ok (linspace a b npts))%result
  | XArray a => Ok a
  end.

(** The expansion point: [x0], or the first sample point when [x0] is
    omitted. *)
Definition expansion_point (x0 : option Expr) (x : list R) : result Expr :=
  match x0 with
  | None => (do v <- index x 0; Ok (Float v))%result
  | Some v => Ok v
  end.

(** An expression numpy can evaluate after [lambdify]: its only symbol is
    [xname] and it holds no O-term. *)
Fixpoint well_formed (xname : string) (e : Expr) : bool :=
  match e with
  | Integer _ | Rational _ _ | Float _ | Pi | E1 => true
  | Symbol s => bool_decide (s = xname)
  | Add a b | Mul a b => well_formed xname a && well_formed xname b
  | Pow a _ => well_formed xname a
  | Apply _ a => well_formed xname a
  | Order _ => false
  end.

(** An approximation the loop can plot on more than one sample point: a
    [Number], or a well-formed expression in which [x] occurs. *)
Definition plottable (app : Expr) : bool :=
  is_Number app || (well_formed "x" app && negb (is_constant app)).

(** The curve of the function and the curve of the approximation of order
    [n]: the values of the expression at the sample points. *)
Definition function_curve (x : list R) (fx : Expr) : curve :=
  Curve x (map (fun xv => value_at xv fx) x) (LabelStr fx) (Some 2).

Definition taylor_curve (series : Expr -> Expr -> Expr -> Z -> Expr)
    (x : list R) (fx x0 : Expr) (n : Z) : curve :=
  let app := removeO (series fx (Symbol "x") x0 n) in
  Curve x (map (fun xv => value_at xv app) x) (LabelOrder n app) None.

Definition add_lines (fig : figure) (cs : list curve) : figure :=
  Figure (lines fig ++ cs) (ylim fig) (grid_on fig) (legend_alpha fig).


(** ** The sampled signal of the numpy section *)

(** The least integer not below [r]. *)
Definition ceil (r : R) : Z := (1 - up (- r))%Z.

(** [np.arange(start, stop, step)] on floats: [ceil((stop - start) / step)]
    values [start + i * step]. *)
Definition arange_step (start stop step : R) : list R :=
  map (fun i => start + INR i * step) (seq 0 (Z.to_nat (ceil ((stop - start) / step)))).

Definition samplingRate : R := 150.
Definition samplingInterval : R := 1 / samplingRate.
Definition timeVector : list R := arange_step 0 1 samplingInterval.

Definition signalFrequency : R := 10.

(** [ourSignal], entry by entry. *)
Definition ourSignal : list R :=
  map (fun t => sin (2 * PI * signalFrequency * t)
                + 0.5 * sin (2 * PI * (2 * signalFrequency) * t))
      timeVector.

(** ** The top-hat function of the diffraction section *)

#[local] Instance Rlt_decision : RelDecision Rlt := Rlt_dec.

(** [sp.Piecewise((0, x < -1), (1, x < 1), (0, True))]: the value of the
    first branch whose condition holds. *)
Definition top_hat (x : R) : R :=
  if decide (x < -1) then 0
  else if decide (x < 1) then 1
  else 0.

(** ** Forward and backward differences *)

(** [f(x).series(x, x0=c, n=3).removeO()] for an unknown function [f], read
    with [f0], [f1], [f2] for the values of [f] and of its first two
    derivatives at [c]. *)
Definition taylor_order3 (f0 f1 f2 c x : R) : R :=
  f0 + (x - c) * f1 + (x - c) ^ 2 / 2 * f2.

(** [.subs(x, c + h)] and [.subs(x, c - h)]. *)
Definition taylorExpansionPlus (f0 f1 f2 c h : R) : R := taylor_order3 f0 f1 f2 c (c + h).
Definition taylorExpansionMinus (f0 f1 f2 c h : R) : R := taylor_order3 f0 f1 f2 c (c - h).

(** The two grouped expressions of the notebook,
    [(taylorExpansionMinus - f(c-h)) -/+ (taylorExpansionPlus - f(c+h))],
    for a function [f]. *)
Definition difference_of_expansions (f : R -> R) (f1 f2 c h : R) : R :=
  (taylorExpansionMinus (f c) f1 f2 c h - f (c - h))
  - (taylorExpansionPlus (f c) f1 f2 c h - f (c + h)).

Definition sum_of_expansions (f : R -> R) (f1 f2 c h : R) : R :=
  (taylorExpansionMinus (f c) f1 f2 c h - f (c - h))
  + (taylorExpansionPlus (f c) f1 f2 c h - f (c + h)).

(** * Proofs *)

(** *** Complex numbers and the transform *)

Lemma C_eq (a b : C) : re a = re b -> im a = im b -> a = b.
Proof. destruct a, b; simpl; intros -> ->; reflexivity. Qed.

Lemma to_floats_real (xs : list R) : to_floats (map SReal xs) = Ok xs.
Proof. induction xs as [|r xs IH]; simpl; [reflexivity|]. rewrite IH. reflexivity. Qed.

Lemma asarray_real_1d x xs : real_1d x xs -> asarray_float x = Ok (F1 xs).
Proof. intros [-> | ->]; simpl; [reflexivity|]. rewrite to_floats_real. reflexivity. Qed.

Lemma Cmul_comm (a b : C) : Cmul a b = Cmul b a.
Proof. apply C_eq; unfold Cmul, re, im; simpl; ring. Qed.

Lemma matrix_entry (N k n : nat) :
  Cexp (Cdivr (Cmul (Cmul (Cmul (Cneg two_j) (RtoC PI)) (RtoC (INR k))) (RtoC (INR n))) (INR N))
  = twiddle N k n.
Proof.
  unfold twiddle. f_equal. apply C_eq; unfold Cdivr, Cmul, Cneg, two_j, RtoC, re, im; simpl;
    unfold Rdiv; ring.
Qed.

Lemma zip_with_seq {A B} (f : A -> R -> B) (g : nat -> A) (xs : list R) (a : nat) :
  zip_with f (map g (seq a (length xs))) xs
  = map (fun n => f (g n) (nth (n - a) xs 0)) (seq a (length xs)).
Proof.
  revert a. induction xs as [|r xs IH]; intros a; simpl; [reflexivity|].
  rewrite Nat.sub_diag. f_equal. rewrite IH. apply map_ext_in.
  intros n Hn. apply in_seq in Hn. replace (n - a)%nat with (S (n - S a)) by lia. reflexivity.
Qed.

Lemma DFT_slow_array (xs : list R) :
  DFT_slow (NdFloat xs) = Ok (DFT_textbook xs).
Proof.
  unfold DFT_slow, DFT_textbook. simpl. f_equal.
  unfold dot, mat_exp, mat_div, bcast_mul, scal_mul_col, reshape_col, arange.
  rewrite !map_map. apply map_ext. intros k. simpl.
  unfold dot_row. rewrite !map_map.
  rewrite (zip_with_seq (fun m xn => Cmul m (RtoC xn))). f_equal.
  apply map_ext. intros n. rewrite matrix_entry, Nat.sub_0_r. apply Cmul_comm.
Qed.

Lemma twiddle_cos_sin (N k n : nat) :
  twiddle N k n = (cos (2 * PI * INR k * INR n / INR N), - sin (2 * PI * INR k * INR n / INR N)).
Proof.
  unfold twiddle, Cexp, re, im. simpl. rewrite exp_0, cos_neg, sin_neg.
  f_equal; ring.
Qed.

Lemma length_DFT_textbook (xs : list R) : length (DFT_textbook xs) = length xs.
Proof. unfold DFT_textbook. rewrite length_map, length_seq. reflexivity. Qed.

(** C1.  On a real-valued 1-D input of length N, [DFT_slow] returns the
    product of the matrix [M[k][n] = exp(-2 pi i k n / N)] with the input:
    component k is the sum over n = 0 .. N-1 of [x[n] * exp(-2 pi i k n / N)]. *)
Theorem DFT_slow_textbook (x : array_like) (xs : list R) :
  real_1d x xs ->
  DFT_slow x = Ok (DFT_textbook xs) /\
  forall k, (k < length xs)%nat ->
    DFT_textbook xs !! k
    = Some (Csum (map (fun n => Cmul (RtoC (nth n xs 0)) (twiddle (length xs) k n))
                      (seq 0 (length xs)))).
Proof.
  intros Hx. split.
  - destruct Hx as [-> | ->]; [apply DFT_slow_array|].
    rewrite <- DFT_slow_array. unfold DFT_slow. simpl. rewrite to_floats_real. reflexivity.
  - intros k Hk. unfold DFT_textbook.
    rewrite list_lookup_fmap, lookup_seq_lt by exact Hk. reflexivity.
Qed.

Lemma DFT_slow_textbook_witness :
  real_1d (PySeq [SReal 1; SReal 2]) [1; 2] /\
  DFT_slow (PySeq [SReal 1; SReal 2]) = Ok (DFT_textbook [1; 2]).
Proof.
  split; [right; reflexivity|].
  apply (DFT_slow_textbook (PySeq [SReal 1; SReal 2]) [1; 2]). right. reflexivity.
Defined.

(** C10, as the code has it.  The coercion to float decides what a complex
    input does: a Python sequence that holds a complex number makes the
    coercion raise TypeError; a complex ndarray is cast without error, the
    imaginary parts are dropped, and the result is the transform of the real
    parts. *)
Theorem DFT_slow_complex_input :
  (forall l z, SComplex z ∈ l ->
     DFT_slow (PySeq l) = Err (TypeError "can't convert complex to float")) /\
  (forall zs, DFT_slow (NdComplex zs) = Ok (DFT_textbook (map re zs))).
Proof.
  split.
  - intros l z Hin. unfold DFT_slow. simpl.
    assert (H : to_floats l = Err (TypeError "can't convert complex to float")).
    { induction l as [|s l IH]; [inversion Hin|].
      apply elem_of_cons in Hin as [<-|Hin]; [reflexivity|].
      simpl. destruct s; simpl; [|reflexivity]. rewrite (IH Hin). reflexivity. }
    rewrite H. reflexivity.
  - intros zs. rewrite <- DFT_slow_array. reflexivity.
Qed.

Lemma DFT_slow_complex_input_witness :
  DFT_slow (PySeq [SReal 1; SComplex (0, 1)]) = Err (TypeError "can't convert complex to float").
Proof.
  apply (proj1 DFT_slow_complex_input [SReal 1; SComplex (0, 1)] (0, 1)).
  right. left.
Defined.

(** C10 as stated fails on a complex ndarray: the coercion of [np.array([1j])]
    does not fail, and [DFT_slow] returns the transform of [[0.]]. *)
Lemma complex_ndarray_is_coerced :
  DFT_slow (NdComplex [(0, 1)]) = Ok (DFT_textbook [0]) /\
  raises (DFT_slow (NdComplex [(0, 1)])) = false.
Proof.
  split; [|reflexivity].
  change (DFT_slow (NdComplex [(0, 1)])) with (DFT_slow (NdFloat [0])).
  apply DFT_slow_array.
Qed.

(** *** atomic_func *)

Lemma sin_shift_2PI (t : R) : sin (t + 2 * PI) = sin t.
Proof. rewrite sin_plus, cos_2PI, sin_2PI. ring. Qed.

Lemma sin_shift_4PI (t : R) : sin (t + 4 * PI) = sin t.
Proof.
  replace (t + 4 * PI) with (t + 2 * PI + 2 * PI) by ring.
  rewrite !sin_shift_2PI. reflexivity.
Qed.

Lemma sin_shift_back_2PI (t : R) : sin (t - 2 * PI) = sin t.
Proof. rewrite <- (sin_shift_2PI (t - 2 * PI)). f_equal. ring. Qed.

(** C5.  [atomic_func] is periodic in both coordinates: 32 is a period in
    [x] and 16 is a period in [y]. *)
Theorem atomic_func_periodic :
  exists Px Py : R,
    Px = 32 /\ Py = 16 /\ 0 < Px /\ 0 < Py /\
    forall x y : R,
      atomic_func (x + Px) y = atomic_func x y /\
      atomic_func x (y + Py) = atomic_func x y.
Proof.
  exists 32, 16. repeat split; try lra.
  - unfold atomic_func.
    replace (4 * (x + 32 + y) * 2 * PI / 64) with (4 * (x + y) * 2 * PI / 64 + 4 * PI) by field.
    replace (2 * (x + 32 - 2 * y) * 2 * PI / 64) with (2 * (x - 2 * y) * 2 * PI / 64 + 2 * PI)
      by field.
    rewrite sin_shift_4PI, sin_shift_2PI. reflexivity.
  - unfold atomic_func.
    replace (4 * (x + (y + 16)) * 2 * PI / 64) with (4 * (x + y) * 2 * PI / 64 + 2 * PI) by field.
    replace (2 * (x - 2 * (y + 16)) * 2 * PI / 64) with (2 * (x - 2 * y) * 2 * PI / 64 - 2 * PI)
      by field.
    rewrite sin_shift_2PI, sin_shift_back_2PI. reflexivity.
Qed.

(** C9.  Every value of [atomic_func] lies in the closed interval [0, 1]. *)
Theorem atomic_func_range (x y : R) : 0 <= atomic_func x y <= 1.
Proof.
  unfold atomic_func.
  pose proof (SIN_bound (4 * (x + y) * 2 * PI / 64)) as [Ha1 Ha2].
  pose proof (SIN_bound (2 * (x - 2 * y) * 2 * PI / 64)) as [Hb1 Hb2].
  set (a := sin _) in *. set (b := sin _) in *.
  split; nra.
Qed.

(** *** Two-dimensional arrays *)

Lemma lookup2_map2 {A B D} (f : A -> B -> D) (a : list (list A)) (b : list (list B)) i j :
  lookup2 (map2 f a b) i j = (x ← lookup2 a i j; y ← lookup2 b i j; Some (f x y)).
Proof.
  unfold lookup2, map2. rewrite lookup_zip_with.
  destruct (a !! i) as [ra|]; simpl; [|reflexivity].
  destruct (b !! i) as [rb|]; simpl.
  - rewrite lookup_zip_with. reflexivity.
  - destruct (ra !! j); reflexivity.
Qed.

Lemma lookup_arange_f (stop j : nat) :
  (j < stop)%nat -> arange_f stop !! j = Some (INR j).
Proof.
  intros Hj. unfold arange_f. rewrite list_lookup_fmap, lookup_seq_lt by lia. reflexivity.
Qed.

Lemma lookup2_meshgrid (w h i j : nat) :
  (i < h)%nat -> (j < w)%nat ->
  lookup2 (meshgrid (arange_f w) (arange_f h)).1 i j = Some (INR j) /\
  lookup2 (meshgrid (arange_f w) (arange_f h)).2 i j = Some (INR i).
Proof.
  intros Hi Hj. unfold lookup2, meshgrid. simpl.
  rewrite !list_lookup_fmap, lookup_arange_f by lia. simpl.
  rewrite list_lookup_fmap, lookup_arange_f by lia. split; reflexivity.
Qed.

Lemma elem_of_where_row (i : nat) (row : list bool) (p : nat * nat) :
  p ∈ where_row i row <-> p.1 = i /\ row !! p.2 = Some true.
Proof.
  unfold where_row. rewrite list_elem_of_fmap. split.
  - intros (j & -> & Hj). apply list_elem_of_filter in Hj as [Hj _]. split; [reflexivity|exact Hj].
  - intros [<- Hj]. exists p.2. split; [destruct p; reflexivity|].
    apply list_elem_of_filter. split; [exact Hj|].
    apply elem_of_seq. apply lookup_lt_Some in Hj. lia.
Qed.

Lemma elem_of_np_where (B : list (list bool)) (i j : nat) :
  (i, j) ∈ np_where B <-> lookup2 B i j = Some true.
Proof.
  unfold np_where, lookup2. rewrite list_elem_of_In, in_concat. split.
  - intros (l & Hl & Hin). apply list_elem_of_In in Hl, Hin.
    apply elem_of_lookup_imap in Hl as (i' & row & -> & Hrow).
    apply elem_of_where_row in Hin as [Hi Hj]. simpl in *. subst i'.
    rewrite Hrow. exact Hj.
  - intros H. destruct (B !! i) as [row|] eqn:Hrow; simpl in H; [|discriminate].
    exists (where_row i row). split; apply list_elem_of_In.
    + apply elem_of_lookup_imap. exists i, row. split; [reflexivity|exact Hrow].
    + apply elem_of_where_row. split; [reflexivity|exact H].
Qed.

Lemma lookup2_set_item {A} (P P' : list (list A)) (ij : nat * nat) (v : A) (i j : nat) :
  set_item P ij v = Ok P' ->
  lookup2 P' i j = if decide (ij = (i, j)) then Some v else lookup2 P i j.
Proof.
  unfold set_item. destruct ij as [a b]. simpl.
  destruct (lookup2 P a b) as [old|] eqn:Hold; [|discriminate].
  intros [= <-]. unfold lookup2 in *.
  destruct (P !! a) as [row|] eqn:Hrow; simpl in Hold; [|discriminate].
  destruct (decide (a = i)) as [->|Hne].
  - rewrite list_lookup_alter_eq, Hrow. simpl.
    destruct (decide (b = j)) as [->|Hne].
    + rewrite decide_True by reflexivity.
      apply list_lookup_insert_eq. eapply lookup_lt_Some, Hold.
    + rewrite decide_False by congruence. apply list_lookup_insert_ne. exact Hne.
  - rewrite decide_False by congruence. rewrite list_lookup_alter_ne by exact Hne. reflexivity.
Qed.

Lemma set_items_spec {A} (idx : list (nat * nat)) (v : A) (P : list (list A)) :
  Forall (fun ij => is_Some (lookup2 P ij.1 ij.2)) idx ->
  exists P', set_items P idx v = Ok P' /\
    forall i j, is_Some (lookup2 P i j) ->
      lookup2 P' i j = if decide ((i, j) ∈ idx) then Some v else lookup2 P i j.
Proof.
  revert P. induction idx as [|ij idx IH]; intros P Hall.
  - exists P. split; [reflexivity|]. intros i j _.
    rewrite decide_False; [reflexivity|]. apply not_elem_of_nil.
  - apply Forall_cons in Hall as [Hij Hall]. simpl.
    destruct (set_item P ij v) as [P1|e] eqn:H1.
    2:{ unfold set_item in H1. destruct Hij as [old Hold]. rewrite Hold in H1. discriminate. }
    assert (Hsame : forall i j, is_Some (lookup2 P i j) -> is_Some (lookup2 P1 i j)).
    { intros i j Hs. rewrite (lookup2_set_item _ _ _ _ _ _ H1). case_decide; eauto. }
    destruct (IH P1) as (P' & Hrun & Hlook).
    { eapply Forall_impl; [exact Hall|]. intros p Hp. apply Hsame, Hp. }
    exists P'. simpl. split; [exact Hrun|]. intros i j Hs.
    rewrite (Hlook i j (Hsame i j Hs)), (lookup2_set_item _ _ _ _ _ _ H1).
    destruct (decide ((i, j) ∈ idx)) as [Hin|Hnin].
    + rewrite decide_True by (right; exact Hin). reflexivity.
    + destruct (decide (ij = (i, j))) as [->|Hne].
      * rewrite decide_True by left. reflexivity.
      * rewrite decide_False; [reflexivity|].
        intros Hc. apply elem_of_cons in Hc as [Hc|Hc]; [congruence|contradiction].
Qed.

Lemma lookup2_meshgrid_lt (w h i j : nat) (v : R) :
  lookup2 (meshgrid (arange_f w) (arange_f h)).1 i j = Some v -> (i < h)%nat /\ (j < w)%nat.
Proof.
  unfold lookup2, meshgrid. simpl. rewrite list_lookup_fmap.
  destruct (arange_f h !! i) as [yi|] eqn:Hy; simpl; [|discriminate].
  intros Hx. apply lookup_lt_Some in Hy, Hx. unfold arange_f in *.
  rewrite length_map, length_seq in Hy, Hx. lia.
Qed.

Lemma has_shape_lookup2 {A} (a : list (list A)) (rows cols i j : nat) :
  has_shape a rows cols = true -> (i < rows)%nat -> (j < cols)%nat -> is_Some (lookup2 a i j).
Proof.
  unfold has_shape. intros H Hi Hj. apply andb_prop in H as [Hlen Hrows].
  apply bool_decide_eq_true in Hlen. subst rows.
  destruct (lookup_lt_is_Some_2 a i Hi) as [row Hrow].
  unfold lookup2. rewrite Hrow. simpl. apply lookup_lt_is_Some_2.
  rewrite forallb_forall in Hrows.
  assert (Hin : In row a) by (apply list_elem_of_In, list_elem_of_lookup; eauto).
  apply Hrows, bool_decide_eq_true in Hin. lia.
Qed.

Lemma aperture_true (X Y xoffset yoffset size : R) :
  aperture X Y xoffset yoffset size = true <-> outside_circle xoffset yoffset size X Y.
Proof. unfold aperture, outside_circle. apply bool_decide_eq_true. Qed.

(** The Boolean array that the masking statement hands to [np.where]. *)
Lemma mask_entry (i j : nat) :
  let '(X, Y) := meshgrid (arange_f 256) (arange_f 256) in
  lookup2 (map2 andb (map2 (fun X Y => aperture X Y 128 128 3) X Y)
                     (map2 (fun X Y => aperture X Y 150 128 3) X Y)) i j
  = if decide ((i < 256)%nat /\ (j < 256)%nat)
    then Some (aperture (INR j) (INR i) 128 128 3 && aperture (INR j) (INR i) 150 128 3)
    else None.
Proof.
  destruct (meshgrid (arange_f 256) (arange_f 256)) as [X Y] eqn:HXY.
  rewrite !lookup2_map2.
  assert (HX : X = (meshgrid (arange_f 256) (arange_f 256)).1) by (rewrite HXY; reflexivity).
  assert (HY : Y = (meshgrid (arange_f 256) (arange_f 256)).2) by (rewrite HXY; reflexivity).
  case_decide as Hij.
  - destruct Hij as [Hi Hj]. destruct (lookup2_meshgrid 256 256 i j Hi Hj) as [H1 H2].
    rewrite <- HX in H1. rewrite <- HY in H2. rewrite H1, H2. reflexivity.
  - destruct (lookup2 X i j) as [v|] eqn:Hv; [|reflexivity].
    rewrite HX in Hv. apply lookup2_meshgrid_lt in Hv. tauto.
Qed.

(** C6.  The mask is circular.  [aperture] is true exactly strictly outside
    the circle of centre (xoffset, yoffset) and radius size; and on a
    256 x 256 spectrum [K] the masking statement succeeds and yields the array
    [P] whose entry (i, j), standing at the point (x, y) = (j, i), is zero when
    the point is strictly outside both circles of radius 3 about (128, 128)
    and (150, 128), and is the entry of [K] when the point is inside or on
    either circle. *)
Theorem aperture_mask_circular (K : list (list C)) :
  has_shape K 256 256 = true ->
  (forall X Y xoffset yoffset size : R,
      aperture X Y xoffset yoffset size = true <->
      (X - xoffset) ^ 2 + (Y - yoffset) ^ 2 > size ^ 2) /\
  exists P, mask_spectrum K = Ok P /\
    forall i j, (i < 256)%nat -> (j < 256)%nat ->
      (outside_circle 128 128 3 (INR j) (INR i) /\ outside_circle 150 128 3 (INR j) (INR i) ->
       lookup2 P i j = Some C0) /\
      (~ outside_circle 128 128 3 (INR j) (INR i) \/ ~ outside_circle 150 128 3 (INR j) (INR i) ->
       lookup2 P i j = lookup2 K i j).
Proof.
  intros HK. split; [intros; apply aperture_true|].
  unfold mask_spectrum. pose proof mask_entry as HB.
  destruct (meshgrid (arange_f 256) (arange_f 256)) as [X Y].
  set (B := map2 andb _ _) in *.
  destruct (set_items_spec (np_where B) C0 K) as (P & Hrun & Hlook).
  { apply Forall_forall. intros [i j] Hin. simpl.
    apply elem_of_np_where in Hin. rewrite HB in Hin.
    case_decide as Hij; [|discriminate]. destruct Hij.
    eapply has_shape_lookup2; eauto. }
  exists P. split; [exact Hrun|]. intros i j Hi Hj.
  rewrite (Hlook i j) by (eapply has_shape_lookup2; eauto).
  assert (Hin : (i, j) ∈ np_where B <->
                outside_circle 128 128 3 (INR j) (INR i) /\
                outside_circle 150 128 3 (INR j) (INR i)).
  { rewrite elem_of_np_where, HB, decide_True by tauto.
    rewrite <- !aperture_true. split.
    - intros [= H]. apply andb_prop in H. exact H.
    - intros [-> ->]. reflexivity. }
  split.
  - intros Hout. rewrite decide_True by (apply Hin, Hout). reflexivity.
  - intros Hins. rewrite decide_False; [reflexivity|]. rewrite Hin. tauto.
Qed.

Lemma aperture_mask_circular_witness :
  has_shape (replicate 256 (replicate 256 C0)) 256 256 = true /\
  exists P, mask_spectrum (replicate 256 (replicate 256 C0)) = Ok P.
Proof.
  split; [vm_compute; reflexivity|].
  destruct (aperture_mask_circular (replicate 256 (replicate 256 C0))) as [_ [P [HP _]]];
    [vm_compute; reflexivity|].
  exists P. exact HP.
Defined.

(** *** The figure writes of the plotting helper *)

Lemma apply_no_effect (fig : figure) : apply_effect no_effect fig = fig.
Proof. destruct fig. unfold apply_effect. simpl. rewrite app_nil_r. reflexivity. Qed.

Lemma apply_seq_effect (e1 e2 : effect) (fig : figure) :
  apply_effect (seq_effect e1 e2) fig = apply_effect e2 (apply_effect e1 fig).
Proof.
  unfold apply_effect, seq_effect. simpl. rewrite app_assoc. f_equal.
  - destruct (new_ylim e2); reflexivity.
  - destruct (toggles e1), (toggles e2), (grid_on fig); reflexivity.
  - destruct (new_legend e2); reflexivity.
Qed.

Lemma writes_ret {A} (a : A) : writes (mret a) (Ok a) no_effect.
Proof. intros fig. rewrite apply_no_effect. reflexivity. Qed.

Lemma writes_lift {A} (r : result A) : writes (lift r) r no_effect.
Proof. intros fig. rewrite apply_no_effect. reflexivity. Qed.

Lemma writes_raise {A} (e : exn) : writes (raise (A := A) e) (Err e) no_effect.
Proof. intros fig. rewrite apply_no_effect. reflexivity. Qed.

Lemma writes_bind_ok {A B} (m : M A) (f : A -> M B) a e1 out e2 :
  writes m (Ok a) e1 -> writes (f a) out e2 -> writes (m ≫= f) out (seq_effect e1 e2).
Proof.
  intros Hm Hf fig. unfold mbind, M_bind. rewrite Hm, Hf, apply_seq_effect. reflexivity.
Qed.

Lemma writes_bind_err {A B} (m : M A) (f : A -> M B) x e1 :
  writes m (Err x) e1 -> writes (m ≫= f) (Err x) e1.
Proof. intros Hm fig. unfold mbind, M_bind. rewrite Hm. reflexivity. Qed.

Lemma writes_plot_ok (x : list R) (y : npval) (l : label) (w : option R) :
  length x = length (as_1d y) ->
  writes (plot x y l w) (Ok ()) (Effect [Curve x (as_1d y) l w] None false None).
Proof. intros H fig. unfold plot. rewrite decide_True by exact H. reflexivity. Qed.

Lemma writes_plot_err (x : list R) (y : npval) (l : label) (w : option R) :
  length x <> length (as_1d y) ->
  writes (plot x y l w) (Err (ValueError "x and y must have same first dimension")) no_effect.
Proof.
  intros H fig. unfold plot. rewrite decide_False by exact H.
  rewrite apply_no_effect. reflexivity.
Qed.

Lemma writes_set_ylim (r : R * R) : writes (set_ylim r) (Ok ()) (Effect [] (Some r) false None).
Proof. intros fig. unfold set_ylim, apply_effect. simpl. rewrite app_nil_r. reflexivity. Qed.

Lemma writes_grid : writes grid (Ok ()) (Effect [] None true None).
Proof. intros fig. unfold grid, apply_effect. simpl. rewrite app_nil_r. reflexivity. Qed.

Lemma writes_legend (a : R) : writes (legend a) (Ok ()) (Effect [] None false (Some a)).
Proof. intros fig. unfold legend, apply_effect. simpl. rewrite app_nil_r. reflexivity. Qed.

Lemma lambdify_error (xname : string) (e : Expr) (x : npval) (err : exn) :
  lambdify xname e x = Err err -> exists s, err = NameError s.
Proof.
  induction e as [z|p q|r| | |s|a IHa b IHb|a IHa b IHb|a IHa n|f a IHa|a IHa]; simpl;
    try discriminate.
  - case_decide; [discriminate|]. intros [= <-]. eauto.
  - destruct (lambdify xname a x); simpl; [|intros [= <-]; apply IHa; reflexivity].
    destruct (lambdify xname b x); simpl; [discriminate|intros [= <-]; apply IHb; reflexivity].
  - destruct (lambdify xname a x); simpl; [|intros [= <-]; apply IHa; reflexivity].
    destruct (lambdify xname b x); simpl; [discriminate|intros [= <-]; apply IHb; reflexivity].
  - destruct (lambdify xname a x); simpl; [discriminate|intros [= <-]; apply IHa; reflexivity].
  - destruct (lambdify xname a x); simpl; [discriminate|intros [= <-]; apply IHa; reflexivity].
  - intros [= <-]. eauto.
Qed.

Lemma seq_no_effect_l (e : effect) : seq_effect no_effect e = e.
Proof.
  destruct e as [l y t g]. unfold seq_effect. simpl.
  destruct y, t, g; reflexivity.
Qed.


Lemma wp_consequence {A} (Q Q' : result A -> effect -> Prop) (m : M A) :
  wp m Q -> (forall out e, Q out e -> Q' out e) -> wp m Q'.
Proof. intros (out & e & Hw & HQ) H. exists out, e. auto. Qed.

Lemma wp_ret {A} (a : A) (Q : result A -> effect -> Prop) :
  Q (Ok a) no_effect -> wp (mret a) Q.
Proof. intros HQ. exists (Ok a), no_effect. split; [apply writes_ret|exact HQ]. Qed.

Lemma wp_lift {A} (r : result A) (Q : result A -> effect -> Prop) :
  Q r no_effect -> wp (lift r) Q.
Proof. intros HQ. exists r, no_effect. split; [apply writes_lift|exact HQ]. Qed.

Lemma wp_raise {A} (x : exn) (Q : result A -> effect -> Prop) :
  Q (Err x) no_effect -> wp (raise x) Q.
Proof. intros HQ. exists (Err x), no_effect. split; [apply writes_raise|exact HQ]. Qed.

Lemma wp_bind {A B} (m : M A) (f : A -> M B) (Q : result B -> effect -> Prop) :
  wp m (fun out1 e1 =>
          match out1 with
          | Ok a => wp (f a) (fun out e2 => Q out (seq_effect e1 e2))
          | Err x => Q (Err x) e1
          end) ->
  wp (m ≫= f) Q.
Proof.
  intros (out1 & e1 & Hw1 & H). destruct out1 as [a|x].
  - destruct H as (out & e2 & Hw2 & HQ). exists out, (seq_effect e1 e2).
    split; [eapply writes_bind_ok; eauto|exact HQ].
  - exists (Err x), e1. split; [apply writes_bind_err, Hw1|exact H].
Qed.

Lemma wp_plot (x : list R) (y : npval) (l : label) (w : option R)
    (Q : result () -> effect -> Prop) :
  (length x = length (as_1d y) -> Q (Ok ()) (Effect [Curve x (as_1d y) l w] None false None)) /\
  (length x <> length (as_1d y) ->
   Q (Err (ValueError "x and y must have same first dimension")) no_effect) ->
  wp (plot x y l w) Q.
Proof.
  intros [Hok Herr]. destruct (decide (length x = length (as_1d y))) as [Hlen|Hlen].
  - eexists _, _. split; [apply writes_plot_ok, Hlen|auto].
  - eexists _, _. split; [apply writes_plot_err, Hlen|auto].
Qed.


(** Closes the case of a run that stops early on an exception other than
    the one of the input check; [tac] shows that it is another one. *)
Ltac early_exit tac :=
  split; [discriminate|]; intros _;
  split; [tac|split; [simpl; rewrite ?length_app; simpl; lia|discriminate]].

Section PlotTaylorFacts.

Variable series : Expr -> Expr -> Expr -> Z -> Expr.

Lemma loop_body_writes x xs fx x0 apps order :
  exists out e,
    writes (loop_body series x xs fx x0 apps order) out e /\ loop_writes out e 1.
Proof.
  unfold loop_body. set (app := removeO _).
  assert (Hplot : forall y,
    exists out e,
      writes (plot x y (LabelOrder order app) None;; mret (<[order:=app]> apps)) out e /\
      loop_writes out e 1).
  { intros y. destruct (decide (length x = length (as_1d y))) as [Hlen|Hlen].
    - eexists _, _. split.
      + eapply writes_bind_ok; [apply writes_plot_ok, Hlen|apply writes_ret].
      + unfold loop_writes. simpl. repeat split; auto; discriminate.
    - eexists _, _. split.
      + eapply writes_bind_err. apply writes_plot_err, Hlen.
      + unfold loop_writes, not_callable_error. simpl.
        repeat split; auto; try discriminate; lia. }
  destruct (is_Number app).
  - destruct (Hplot (Array (filled_like x (number_value app)))) as (out & e & Hw & Hl).
    exists out, e. split; [|exact Hl].
    rewrite <- (seq_no_effect_l e). eapply writes_bind_ok; [apply writes_ret|exact Hw].
  - destruct (lambdify "x" app (Array x)) as [y|err] eqn:Hy.
    + destruct (Hplot y) as (out & e & Hw & Hl).
      exists out, e. split; [|exact Hl].
      rewrite <- (seq_no_effect_l e). eapply writes_bind_ok; [apply writes_lift|exact Hw].
    + exists (Err err), no_effect. split.
      * apply writes_bind_err, writes_lift.
      * apply lambdify_error in Hy as [s ->].
        unfold loop_writes, not_callable_error. simpl.
        repeat split; auto; try discriminate; lia.
Qed.

Lemma for_orders_writes x xs fx x0 orders apps :
  exists out e,
    writes (for_orders series x xs fx x0 orders apps) out e /\
    loop_writes out e (length orders).
Proof.
  revert apps. induction orders as [|order orders IH]; intros apps; simpl.
  - exists (Ok apps), no_effect. split; [apply writes_ret|].
    unfold loop_writes. simpl. repeat split; auto; discriminate.
  - destruct (loop_body_writes x xs fx x0 apps order) as (out1 & e1 & Hw1 & H1).
    destruct out1 as [apps'|err].
    + destruct (IH apps') as (out & e & Hw & H).
      exists out, (seq_effect e1 e). split; [eapply writes_bind_ok; eauto|].
      destruct H1 as (Hy1 & Ht1 & Hl1 & _ & _ & Hn1).
      destruct H as (Hy & Ht & Hl & Hne & Hle & Hn).
      specialize (Hn1 _ eq_refl).
      unfold loop_writes. simpl. rewrite Hy, Hy1, Ht, Ht1, Hl, Hl1, length_app, Hn1.
      repeat split; auto; [lia|]. intros a Ha. rewrite (Hn a Ha). reflexivity.
    + exists (Err err), e1. split; [apply writes_bind_err, Hw1|].
      destruct H1 as (Hy1 & Ht1 & Hl1 & Hne1 & Hle1 & _).
      unfold loop_writes. repeat split; auto; [lia|discriminate].
Qed.

Lemma finish_writes (yrange : option (R * R)) :
  writes (match yrange with Some r => set_ylim r | None => mret () end;; grid;; legend 0.8)
         (Ok ()) (Effect [] yrange true (Some 0.8)).
Proof.
  intros fig. destruct yrange; unfold mbind, M_bind, set_ylim, grid, legend, apply_effect; simpl;
    rewrite app_nil_r; reflexivity.
Qed.

Lemma sample_points_error xrange npts err :
  match xrange with
  | XBounds l => (do a <- index l 0; do b <- index l 1; Ok (linspace a b npts))%result
  | XArray a => Ok a
  end = Err err ->
  err <> not_callable_error.
Proof.
  destruct xrange as [l|a]; [|discriminate]. unfold index.
  destruct (l !! 0%nat); simpl; [|intros [= <-]; discriminate].
  destruct (l !! 1%nat); simpl; [discriminate|intros [= <-]; discriminate].
Qed.


Lemma plot_taylor_writes func x0 orders xrange yrange npts :
  wp (plot_taylor_approximations series func x0 orders xrange yrange npts)
     (fun out e =>
        (callable func = false -> out = Err not_callable_error /\ e = no_effect) /\
        (callable func = true -> callable_run orders yrange out e)).
Proof.
  unfold plot_taylor_approximations, callable_run.
  destruct (callable func) eqn:Hc; simpl.
  2:{ apply wp_raise. split; [auto|discriminate]. }
  destruct func as [f| |]; try discriminate. simpl.
  (* x = np.linspace(...) or x = xrange *)
  apply wp_bind, wp_lift.
  match goal with |- match ?r with _ => _ end => destruct r as [x|err] eqn:Hx end.
  2:{ early_exit ltac:(intros [= ->]; eapply sample_points_error; [exact Hx|reflexivity]). }
  (* x0 = x[0] *)
  apply wp_bind.
  apply (wp_consequence (fun out e => e = no_effect /\ out <> Err not_callable_error)).
  { destruct x0 as [v|].
    - apply wp_ret. split; [reflexivity|discriminate].
    - apply wp_lift. split; [reflexivity|]. unfold index.
      destruct (x !! 0%nat); simpl; discriminate. }
  intros [v|err] e0 [-> Hne].
  2:{ early_exit ltac:(congruence). }
  (* fx = func(xs); plt.plot(x, f(x), ...) *)
  apply wp_bind, wp_lift, wp_bind, wp_lift.
  destruct (lambdify "x" (f (Symbol "x")) (Array x)) as [y|err] eqn:Hy.
  2:{ early_exit ltac:(apply lambdify_error in Hy as [s ->]; discriminate). }
  apply wp_bind, wp_plot. split; intros Hlen.
  2:{ early_exit ltac:(discriminate). }
  (* the loop *)
  apply wp_bind.
  destruct (for_orders_writes x (Symbol "x") (f (Symbol "x")) v orders ∅)
    as (out & e & Hw & Hy1 & Ht1 & Hl1 & Hne1 & Hle1 & Hn1).
  exists out, e. split; [exact Hw|].
  destruct out as [apps|err].
  2:{ early_exit ltac:(intros [= ->]; apply Hne1; reflexivity). }
  (* plt.ylim, plt.grid, plt.legend *)
  exists (Ok ()), (Effect [] yrange true (Some 0.8)). split; [apply finish_writes|].
  split; [discriminate|]. intros _. split; [discriminate|].
  simpl. rewrite ?length_app, (Hn1 _ eq_refl), Hy1, Ht1. simpl.
  split; [lia|]. intros _.
  repeat split; try reflexivity; try lia.
  destruct yrange; reflexivity.
Qed.

End PlotTaylorFacts.

(** *** Constant approximations *)

Lemma lambdify_constant (xname : string) (e : Expr) (x : npval) :
  is_constant e = true -> lambdify xname e x = Ok (Scalar (value_at 0 e)).
Proof.
  induction e as [z|p q|r| | |s|a IHa b IHb|a IHa b IHb|a IHa n|f a IHa|a IHa]; simpl;
    try reflexivity; try discriminate.
  - intros H. apply andb_prop in H as [Ha Hb]. rewrite (IHa Ha), (IHb Hb). reflexivity.
  - intros H. apply andb_prop in H as [Ha Hb]. rewrite (IHa Ha), (IHb Hb). reflexivity.
  - intros Ha. rewrite (IHa Ha). reflexivity.
  - intros Ha. rewrite (IHa Ha). destruct f; reflexivity.
Qed.

Lemma length_linspace (start stop : R) (num : nat) : length (linspace start stop num) = num.
Proof.
  destruct num as [|[|num]]; [reflexivity..|].
  unfold linspace. rewrite length_map, length_seq. reflexivity.
Qed.

Lemma loop_body_constant series x xs fx x0 apps order fig :
  let app := removeO (series fx xs x0 order) in
  is_constant app = true -> is_Number app = false -> length x <> 1%nat ->
  loop_body series x xs fx x0 apps order fig
  = (Err (ValueError "x and y must have same first dimension"), fig).
Proof.
  intros app Hc Hn Hlen. unfold loop_body. fold app. rewrite Hn.
  unfold mbind, M_bind, lift. rewrite (lambdify_constant "x" app _ Hc).
  unfold plot. simpl. rewrite decide_False by exact Hlen. reflexivity.
Qed.


(** C7, at the input [plot_taylor_approximations(lambda x: x + sp.pi, 0, [1])].
    The approximation of order 1 is the constant [pi], which is no [Number]:
    it is handed to [lambdify], comes back as a scalar instead of a
    constant-filled array, and [plt.plot] refuses it.  The run ends with a
    ValueError and only the curve of the function drawn. *)
Theorem taylor_constant_not_broadcast :
  let func := PyFunction (fun x => Add x Pi) in
  let x := linspace 0 1 200 in
  removeO (series_affine (Add (Symbol "x") Pi) (Symbol "x") (Integer 0) 1) = Pi /\
  is_constant Pi = true /\ is_Number Pi = false /\
  plot_taylor_approximations series_affine func (Some (Integer 0)) [1%Z] (XBounds [0; 1]) None 200
    empty_figure
  = (Err (ValueError "x and y must have same first dimension"),
     Figure [Curve x (map (fun a => a + PI) x) (LabelStr (Add (Symbol "x") Pi)) (Some 2)]
            None false None).
Proof.
  intros func x. do 3 (split; [reflexivity|]).
  unfold plot_taylor_approximations, func, x. reflexivity.
Qed.

(** *** The input check *)

(** C3 as stated fails: [DFT_slow] is a second helper that raises on a bad
    input, here the list [[1, 1j]]. *)
Lemma second_helper_raises :
  DFT_slow (PySeq [SReal 1; SComplex (0, 1)]) = Err (TypeError "can't convert complex to float") /\
  raises (DFT_slow (PySeq [SReal 1; SComplex (0, 1)])) = true.
Proof. split; reflexivity. Qed.

Lemma DFT_slow_error (x : array_like) (e : exn) :
  DFT_slow x = Err e ->
  e = TypeError "can't convert complex to float" \/ e = IndexError "tuple index out of range".
Proof.
  assert (Hfl : forall l e, to_floats l = Err e -> e = TypeError "can't convert complex to float").
  { induction l as [|s l IH]; simpl; [discriminate|]. intros e'.
    destruct s; simpl; [|intros [= <-]; reflexivity].
    destruct (to_floats l); simpl; [discriminate|]. intros [= <-]. apply IH. reflexivity. }
  unfold DFT_slow. destruct x as [s|l|l|l]; simpl.
  - destruct s; simpl; intros [= <-]; auto.
  - destruct (to_floats l) eqn:Hl; simpl; [discriminate|]. intros [= <-]. left. eapply Hfl, Hl.
  - discriminate.
  - discriminate.
Qed.

(** C3, as the code has it.  The input check of [plot_taylor_approximations]
    is the only check a helper makes: the helper ends with
    ValueError('func must be callable') exactly when [func] is not callable,
    and then the figure is untouched; for a callable [func] the check
    passes.  [DFT_slow] checks nothing itself: when it fails, the error is
    the TypeError of the float coercion or the IndexError of [shape[0]]. *)
Theorem callable_check
    (series : Expr -> Expr -> Expr -> Z -> Expr)
    (func : pyobj) (x0 : option Expr) (orders : list Z)
    (xrange : xrange_arg) (yrange : option (R * R)) (npts : nat) (fig : figure) :
  let run := plot_taylor_approximations series func x0 orders xrange yrange npts fig in
  (run.1 = Err (ValueError "func must be callable") <-> callable func = false) /\
  (callable func = false -> run.2 = fig) /\
  (forall x e, DFT_slow x = Err e ->
     e = TypeError "can't convert complex to float" \/ e = IndexError "tuple index out of range").
Proof.
  intros run. subst run.
  destruct (plot_taylor_writes series func x0 orders xrange yrange npts)
    as (out & e & Hw & Hno & Hyes).
  rewrite (Hw fig). simpl. split; [|split].
  - split.
    + intros ->. destruct (callable func); [|reflexivity].
      destruct (Hyes eq_refl) as [Hne _]. contradiction.
    + intros Hc. apply Hno, Hc.
  - intros Hc. destruct (Hno Hc) as [_ ->]. apply apply_no_effect.
  - apply DFT_slow_error.
Qed.

Lemma callable_check_witness :
  (plot_taylor_approximations series_affine PyNone None [2%Z; 4%Z] (XBounds [0; 1]) None 200
     empty_figure).2 = empty_figure.
Proof.
  apply (callable_check series_affine PyNone None [2%Z; 4%Z] (XBounds [0; 1]) None 200
           empty_figure).
  reflexivity.
Defined.

(** *** Purity *)

(** C4 as stated fails: the plotting helper writes the shared pyplot
    figure.  Run on [lambda x: x] with no orders, it leaves a curve on a figure
    that was empty, and a second run on equal arguments ends with the grid in
    the other position. *)
Lemma plot_helper_writes_figure :
  let run := plot_taylor_approximations series_affine (PyFunction (fun x => x))
               (Some (Integer 0)) [] (XBounds [0; 1]) None 2 in
  (run empty_figure).1 = Ok () /\
  (run empty_figure).2 <> empty_figure /\
  grid_on (run empty_figure).2 = true /\
  grid_on (run (run empty_figure).2).2 = false.
Proof.
  simpl. repeat split. intros H. discriminate H.
Qed.

(** C4, as the code has it.  [DFT_slow], [atomic_func] and [aperture] are
    functions of their arguments alone.  [plot_taylor_approximations] is a
    function of its arguments and of the current figure: its outcome and
    the curves it appends are the same on every figure, and a run that
    succeeds has appended one curve for [func] and one for each entry of
    [orders], toggled the grid and set the legend. *)
Theorem helpers_purity
    (series : Expr -> Expr -> Expr -> Z -> Expr)
    (func : pyobj) (x0 : option Expr) (orders : list Z)
    (xrange : xrange_arg) (yrange : option (R * R)) (npts : nat) :
  (forall x x' : array_like, x = x' -> DFT_slow x = DFT_slow x') /\
  (forall x y x' y' : R, x = x' -> y = y' -> atomic_func x y = atomic_func x' y') /\
  (forall X Y xo yo s X' Y' xo' yo' s' : R,
     X = X' -> Y = Y' -> xo = xo' -> yo = yo' -> s = s' ->
     aperture X Y xo yo s = aperture X' Y' xo' yo' s') /\
  exists out new,
    forall fig,
      let run := plot_taylor_approximations series func x0 orders xrange yrange npts fig in
      run.1 = out /\
      lines run.2 = lines fig ++ new /\
      (out = Ok () ->
         length new = S (length orders) /\
         grid_on run.2 = negb (grid_on fig) /\
         legend_alpha run.2 = Some 0.8).
Proof.
  split; [intros; subst; reflexivity|].
  split; [intros; subst; reflexivity|].
  split; [intros; subst; reflexivity|].
  destruct (plot_taylor_writes series func x0 orders xrange yrange npts)
    as (out & e & Hw & Hno & Hyes).
  exists out, (new_lines e). intros fig run. subst run. rewrite (Hw fig). simpl.
  split; [reflexivity|]. split; [reflexivity|]. intros ->.
  destruct (callable func).
  - destruct (Hyes eq_refl) as (_ & _ & Hok).
    destruct (Hok eq_refl) as (Hlen & _ & Ht & Hl).
    rewrite Hlen, Ht, Hl. auto.
  - destruct (Hno eq_refl) as [Hout _]. discriminate.
Qed.

(** *** Runs, step by step *)

Section StepFacts.

Context {St A : Type}.
Variable step : St -> St + A.

Lemma steps_add (n m : nat) (s : St) :
  steps step (n + m) s
  = match steps step n s with
    | inl s' => steps step m s'
    | inr a => inr a
    end.
Proof.
  revert s. induction n as [|n IH]; intros s; simpl; [reflexivity|].
  destruct (step s) as [s'|a]; [apply IH|reflexivity].
Qed.

Lemma steps_ended (n m : nat) (s : St) (a : A) :
  steps step n s = inr a -> (n <= m)%nat -> steps step m s = inr a.
Proof.
  intros H Hle. replace m with (n + (m - n))%nat by lia.
  rewrite steps_add, H. reflexivity.
Qed.

Lemma within_step (n : nat) (s s' : St) (t : St + A) :
  step s = inl s' -> within step n s' t -> within step (S n) s t.
Proof.
  intros Hs (k & Hk & Ht). exists (S k). split; [lia|]. simpl. rewrite Hs. exact Ht.
Qed.

Lemma within_end (n : nat) (s : St) (a : A) :
  step s = inr a -> within step (S n) s (inr a).
Proof.
  intros Hs. exists 1%nat. split; [lia|]. simpl. rewrite Hs. reflexivity.
Qed.

Lemma within_trans (n m : nat) (s s' : St) (t : St + A) :
  within step n s (inl s') -> within step m s' t -> within step (n + m) s t.
Proof.
  intros (k & Hk & Hs) (j & Hj & Ht). exists (k + j)%nat. split; [lia|].
  rewrite steps_add, Hs. exact Ht.
Qed.

Lemma within_le (n m : nat) (s : St) (t : St + A) :
  within step n s t -> (n <= m)%nat -> within step m s t.
Proof. intros (k & Hk & Ht) Hle. exists k. split; [lia|exact Ht]. Qed.

Lemma within_run (n : nat) (s : St) (a : A) :
  within step n s (inr a) -> run step n s = Some a.
Proof.
  intros (k & Hk & Ht). unfold run. rewrite (steps_ended k n s a Ht Hk). reflexivity.
Qed.

Lemma run_steps (n : nat) (s : St) (a : A) :
  run step n s = Some a -> steps step n s = inr a.
Proof. unfold run. destruct (steps step n s); [discriminate|]. intros [= ->]. reflexivity. Qed.

(** A run that has not ended after [n + m] steps had not ended after [n]. *)
Lemma run_None_before (n m : nat) (s : St) :
  run step (n + m) s = None -> run step n s = None.
Proof.
  unfold run. rewrite steps_add. destruct (steps step n s); [reflexivity|discriminate].
Qed.

End StepFacts.

(** [DFT_slow] is six statements without a loop: its run ends within six
    steps, with the value of the function. *)
Lemma DFT_slow_run (x : array_like) :
  run DFT_step 6 (DFT_asarray x) = Some (DFT_slow x).
Proof.
  apply within_run. unfold DFT_slow.
  destruct (asarray_float x) as [a|e] eqn:Ha; simpl rbind.
  - eapply within_step; [simpl; rewrite Ha; reflexivity|].
    destruct (tuple_get (shape a) 0) as [N|e] eqn:HN; simpl rbind.
    + eapply within_step; [simpl; rewrite HN; reflexivity|].
      do 3 (eapply within_step; [reflexivity|]).
      apply within_end. reflexivity.
    + apply within_end. simpl. rewrite HN. reflexivity.
  - apply within_end. simpl. rewrite Ha. reflexivity.
Qed.

Section PlotTaylorStepFacts.

Variable series : Expr -> Expr -> Expr -> Z -> Expr.

Lemma for_orders_cons x xs fx c order rest apps fig :
  for_orders series x xs fx c (order :: rest) apps fig
  = match loop_body series x xs fx c apps order fig with
    | (Ok apps', fig') => for_orders series x xs fx c rest apps' fig'
    | (Err e, fig') => (Err e, fig')
    end.
Proof. reflexivity. Qed.

Lemma loop_body_eq x xs fx c apps order fig :
  loop_body series x xs fx c apps order fig
  = let app := removeO (series fx xs c order) in
    match (if is_Number app then Ok (Array (filled_like x (number_value app)))
           else lambdify "x" app (Array x)) with
    | Ok y =>
        match plot x y (LabelOrder order app) None fig with
        | (Ok _, fig') => (Ok (<[order := app]> apps), fig')
        | (Err e, fig') => (Err e, fig')
        end
    | Err e => (Err e, fig)
    end.
Proof.
  unfold loop_body, mbind, M_bind, mret, M_ret, lift. cbv zeta.
  destruct (is_Number _); [|destruct (lambdify _ _ _)]; try reflexivity;
    destruct (plot _ _ _ _ _) as [[[]|] ?]; reflexivity.
Qed.

Lemma filled_like_fill (x : list R) (a b : R) :
  filled_like (filled_like x a) b = filled_like x b.
Proof. unfold filled_like. rewrite map_map. reflexivity. Qed.

(** The loop: at most eight statements for each entry the iterator has
    left, and one more step to find it exhausted. *)
Lemma for_within func x0 orders xrange yrange npts v apps rest fig :
  within (plot_taylor_step series func x0 orders xrange yrange npts)
    (8 * length rest + 1) (For v apps rest, fig)
    match for_orders series (v_x v) (v_xs v) (v_fx v) (v_x0 v) rest apps fig with
    | (Ok _, fig') => inl (If_yrange, fig')
    | (Err e, fig') => inr (Err e, fig')
    end.
Proof.
  revert apps fig. induction rest as [|order rest IH]; intros apps fig.
  - eapply within_step; [reflexivity|]. exists 0%nat. split; [lia|reflexivity].
  - rewrite for_orders_cons, loop_body_eq. cbv zeta.
    set (app := removeO _).
    replace (8 * length (order :: rest) + 1)%nat
      with (S (S (S (S (S (S (S (S (8 * length rest + 1)))))))))%nat by (simpl; lia).
    do 3 (eapply within_step; [reflexivity|]). fold app. clearbody app.
    destruct (is_Number app) eqn:Hnum.
    + eapply within_step; [simpl; rewrite Hnum; reflexivity|].
      do 3 (eapply within_step; [reflexivity|]).
      simpl v_x. rewrite filled_like_fill.
      destruct (plot (v_x v) _ (LabelOrder order app) None fig) as [[[]|e] fig'] eqn:Hplot.
      * eapply within_step; [simpl; unfold exec; rewrite Hplot; reflexivity|].
        eapply within_le; [apply IH|lia].
      * apply within_end. simpl. unfold exec. rewrite Hplot. reflexivity.
    + eapply within_step; [simpl; rewrite Hnum; reflexivity|].
      eapply within_step; [reflexivity|].
      destruct (lambdify "x" app (Array (v_x v))) as [y|e] eqn:Hy.
      * eapply within_step; [simpl; rewrite Hy; reflexivity|].
        eapply within_step; [reflexivity|].
        destruct (plot (v_x v) y (LabelOrder order app) None fig) as [[[]|e] fig'] eqn:Hplot.
        -- eapply within_step; [simpl; unfold exec; rewrite Hplot; reflexivity|].
           eapply within_le; [apply IH|lia].
        -- apply within_end. simpl. unfold exec. rewrite Hplot. reflexivity.
      * apply within_end. simpl. rewrite Hy. reflexivity.
Qed.


(** From the entry to the call of [func]: five statements. *)
Lemma head_within func x0 orders xrange yrange npts fig :
  callable_arg func = true ->
  within (plot_taylor_step series func x0 orders xrange yrange npts) 5 (If_callable, fig)
    match bound_arguments x0 xrange npts with
    | Ok (x, c) => inl (Call_func x c (Symbol "x"), fig)
    | Err e => inr (Err e, fig)
    end.
Proof.
  intros Hc. eapply within_step; [simpl; rewrite Hc; reflexivity|].
  unfold bound_arguments.
  assert (Hx0 : forall x,
    within (plot_taylor_step series func x0 orders xrange yrange npts) 2 (If_x0 x, fig)
      match (do c <- match x0 with
                     | None => (do v <- index x 0; Ok (Float v))
                     | Some v => Ok v
                     end; Ok (x, c))%result with
      | Ok (x, c) => inl (Call_func x c (Symbol "x"), fig)
      | Err e => inr (Err e, fig)
      end).
  { intros x. destruct x0 as [v|]; simpl rbind.
    - do 2 (eapply within_step; [reflexivity|]). exists 0%nat. split; [lia|reflexivity].
    - destruct (index x 0) as [v|e] eqn:Hv; simpl rbind.
      + eapply within_step; [simpl; rewrite Hv; reflexivity|].
        eapply within_step; [reflexivity|]. exists 0%nat. split; [lia|reflexivity].
      + apply within_end. simpl. rewrite Hv. reflexivity. }
  destruct xrange as [l|a].
  - eapply within_step; [reflexivity|].
    destruct (do a <- index l 0; do b <- index l 1; Ok (linspace a b npts))%result
      as [x|e] eqn:Hx.
    + eapply within_step; [simpl; rewrite Hx; reflexivity|]. simpl rbind at 1. apply Hx0.
    + apply within_end. simpl. rewrite Hx. reflexivity.
  - do 2 (eapply within_step; [reflexivity|]). apply Hx0.
Qed.

(** Inside [func]: as many steps as the function takes. *)
Lemma in_func_within func x0 orders xrange yrange npts body k x c xs st r fig :
  steps (cstep body) k st = inr r ->
  within (plot_taylor_step series func x0 orders xrange yrange npts) k
    (In_func x c xs body st, fig)
    (proceed r fig (fun fx => Lambdify_fx (Locals x c xs fx))).
Proof.
  revert st. induction k as [|k IH]; intros st; simpl; [discriminate|].
  destruct (cstep body st) as [st'|r'] eqn:Hst.
  - intros H. eapply within_step; [simpl; rewrite Hst; reflexivity|]. apply IH, H.
  - intros [= ->]. exists 1%nat. split; [lia|]. simpl. rewrite Hst.
    destruct r; reflexivity.
Qed.

(** A function that does not return keeps the helper inside the call. *)
Lemma in_func_forever func x0 orders xrange yrange npts body x c xs fig n :
  forall st,
    (forall m, run (cstep body) m st = None) ->
    exists st',
      steps (plot_taylor_step series func x0 orders xrange yrange npts) n
        (In_func x c xs body st, fig)
      = inl (In_func x c xs body st', fig).
Proof.
  induction n as [|n IH]; intros st Hst; [exists st; reflexivity|].
  simpl. destruct (cstep body st) as [st'|r] eqn:Hstep.
  - apply IH. intros m. specialize (Hst (S m)). unfold run in *. simpl in Hst.
    rewrite Hstep in Hst. exact Hst.
  - specialize (Hst 1%nat). unfold run in Hst. simpl in Hst. rewrite Hstep in Hst.
    discriminate.
Qed.

(** From the binding of [fx] to the end: three statements, the loop, and
    at most four closing statements. *)
Lemma tail_within func x0 orders xrange yrange npts x c fx fig :
  within (plot_taylor_step series func x0 orders xrange yrange npts)
    (8 * length orders + 8) (Lambdify_fx (Locals x c (Symbol "x") fx), fig)
    (inr (after_call series x c fx orders yrange fig)).
Proof.
  replace (8 * length orders + 8)%nat
    with (S (S (S ((8 * length orders + 1) + 4))))%nat by lia.
  unfold after_call, mbind, M_bind, lift.
  eapply within_step; [reflexivity|].
  destruct (lambdify "x" fx (Array x)) as [y|e] eqn:Hy;
    [|apply within_end; simpl; rewrite Hy; reflexivity].
  destruct (plot x y (LabelStr fx) (Some 2) fig) as [[[]|e] fig1] eqn:Hplot;
    [|apply within_end; simpl; rewrite Hy; unfold exec; simpl; rewrite Hplot; reflexivity].
  eapply within_step; [simpl; rewrite Hy; unfold exec; simpl; rewrite Hplot; reflexivity|].
  eapply within_step; [reflexivity|].
  pose proof (for_within func x0 orders xrange yrange npts
                (Locals x c (Symbol "x") fx) ∅ orders fig1) as Hloop.
  simpl in Hloop.
  destruct (for_orders series x (Symbol "x") fx c orders ∅ fig1) as [[apps|e] fig2].
  - eapply within_trans; [exact Hloop|].
    destruct yrange as [r|].
    + do 3 (eapply within_step; [reflexivity|]). apply within_end. reflexivity.
    + do 2 (eapply within_step; [reflexivity|]). apply within_end. reflexivity.
  - eapply within_le; [exact Hloop|lia].
Qed.

(** The helper of the embedding, cut at the call of [func]. *)
Lemma plot_taylor_eq f x0 orders xrange yrange npts fig :
  plot_taylor_approximations series (PyFunction f) x0 orders xrange yrange npts fig
  = match bound_arguments x0 xrange npts with
    | Ok (x, c) => after_call series x c (f (Symbol "x")) orders yrange fig
    | Err e => (Err e, fig)
    end.
Proof.
  unfold plot_taylor_approximations, bound_arguments.
  change (negb (callable (PyFunction f))) with false. cbv iota.
  unfold mbind at 1 2, M_bind at 1 2, lift at 1.
  destruct (match xrange with
            | XBounds l => (do a <- index l 0; do b <- index l 1; Ok (linspace a b npts))%result
            | XArray a => Ok a
            end) as [x|e]; simpl rbind; [|reflexivity].
  destruct x0 as [v|]; [reflexivity|].
  unfold lift at 1. destruct (index x 0) as [v|e]; reflexivity.
Qed.

(** The run on an object of [pyobj] ends with what the embedding of the
    helper returns. *)
Lemma plot_taylor_run o x0 orders xrange yrange npts fig :
  run (plot_taylor_step series (PyOther o) x0 orders xrange yrange npts)
      (14 + 8 * length orders) (If_callable, fig)
  = Some (plot_taylor_approximations series o x0 orders xrange yrange npts fig).
Proof.
  apply within_run.
  assert (Hno : callable o = false ->
    within (plot_taylor_step series (PyOther o) x0 orders xrange yrange npts)
      (14 + 8 * length orders) (If_callable, fig)
      (inr (plot_taylor_approximations series o x0 orders xrange yrange npts fig))).
  { intros Hc. unfold plot_taylor_approximations. rewrite Hc.
    eapply within_step; [simpl; rewrite Hc; reflexivity|].
    apply within_end. reflexivity. }
  destruct o as [f|r|]; [|apply Hno; reflexivity..].
  rewrite plot_taylor_eq.
  pose proof (head_within (PyOther (PyFunction f)) x0 orders xrange yrange npts fig eq_refl)
    as Hhead.
  destruct (bound_arguments x0 xrange npts) as [[x c]|e].
  - replace (14 + 8 * length orders)%nat with (5 + S (8 * length orders + 8))%nat by lia.
    eapply within_trans; [exact Hhead|].
    eapply within_step; [reflexivity|]. apply tail_within.
  - eapply within_le; [exact Hhead|lia].
Qed.

(** The run on a function that returns or raises after [m] steps. *)
Lemma plot_taylor_run_def body m r x0 orders xrange yrange npts fig :
  run (cstep body) m (enter body (Symbol "x")) = Some r ->
  exists out,
    run (plot_taylor_step series (PyDef body) x0 orders xrange yrange npts)
        (m + 14 + 8 * length orders) (If_callable, fig) = Some out /\
    match r with
    | Ok fx =>
        out = plot_taylor_approximations series (PyFunction (fun _ => fx))
                x0 orders xrange yrange npts fig
    | Err _ => raises out.1 = true /\ out.2 = fig
    end.
Proof.
  intros Hr. apply run_steps in Hr.
  pose proof (head_within (PyDef body) x0 orders xrange yrange npts fig eq_refl) as Hhead.
  destruct r as [fx|e0].
  - eexists. split; [|reflexivity]. apply within_run. rewrite plot_taylor_eq.
    destruct (bound_arguments x0 xrange npts) as [[x c]|e].
    + replace (m + 14 + 8 * length orders)%nat
        with (5 + S (m + (8 * length orders + 8)))%nat by lia.
      eapply within_trans; [exact Hhead|].
      eapply within_step; [reflexivity|].
      eapply within_trans; [|apply tail_within].
      apply (in_func_within (PyDef body) x0 orders xrange yrange npts body m x c
               (Symbol "x") _ (Ok fx) fig Hr).
    + eapply within_le; [exact Hhead|lia].
  - destruct (bound_arguments x0 xrange npts) as [[x c]|e].
    + exists (Err e0, fig). split; [|split; reflexivity]. apply within_run.
      replace (m + 14 + 8 * length orders)%nat
        with (5 + S (m + (8 * length orders + 8)))%nat by lia.
      eapply within_trans; [exact Hhead|].
      eapply within_step; [reflexivity|].
      eapply within_le;
        [apply (in_func_within (PyDef body) x0 orders xrange yrange npts body m x c
                  (Symbol "x") _ (Err e0) fig Hr)|lia].
    + exists (Err e, fig). split; [|split; reflexivity]. apply within_run.
      eapply within_le; [exact Hhead|lia].
Qed.

(** The run on a function that does not return does not end. *)
Lemma plot_taylor_run_forever body x0 orders xrange yrange npts fig x c :
  bound_arguments x0 xrange npts = Ok (x, c) ->
  (forall m, run (cstep body) m (enter body (Symbol "x")) = None) ->
  forall n,
    run (plot_taylor_step series (PyDef body) x0 orders xrange yrange npts) n
        (If_callable, fig) = None.
Proof.
  intros Hargs Hbody n.
  pose proof (head_within (PyDef body) x0 orders xrange yrange npts fig eq_refl) as Hhead.
  rewrite Hargs in Hhead. destruct Hhead as (k & _ & Hk).
  apply (run_None_before _ n (k + 1)).
  replace (n + (k + 1))%nat with (k + (1 + n))%nat by lia.
  unfold run. rewrite steps_add, Hk.
  destruct (in_func_forever (PyDef body) x0 orders xrange yrange npts body x c (Symbol "x")
              fig n (enter body (Symbol "x")) Hbody) as [st' Hst'].
  change (steps _ (1 + n) (Call_func x c (Symbol "x"), fig))
    with (steps (plot_taylor_step series (PyDef body) x0 orders xrange yrange npts) n
            (In_func x c (Symbol "x") body (enter body (Symbol "x")), fig)).
  rewrite Hst'. reflexivity.
Qed.

End PlotTaylorStepFacts.

Lemma forever_never_returns (m : nat) (st : cstate forever) :
  run (cstep forever) m st = None.
Proof.
  unfold run. revert st. induction m as [|m IH]; intros st; [reflexivity|exact (IH tt)].
Qed.

(** C8 as stated fails: a callable [func] need not return.  With
    [def f(x): while True: pass], the call
    [plot_taylor_approximations(f, 0)] passes the input check and never
    ends. *)
Lemma callable_func_never_returns :
  callable_arg (PyDef forever) = true /\
  forall n,
    run (plot_taylor_step series_affine (PyDef forever) (Some (Integer 0)) [2%Z; 4%Z]
           (XBounds [0; 1]) None 200) n (If_callable, empty_figure) = None.
Proof.
  split; [reflexivity|].
  apply (plot_taylor_run_forever series_affine forever (Some (Integer 0)) [2%Z; 4%Z]
           (XBounds [0; 1]) None 200 empty_figure (linspace 0 1 200) (Integer 0)).
  - reflexivity.
  - intros m. apply forever_never_returns.
Qed.

(** C8, as the code has it.  Every helper runs to completion when the
    calls it makes return.  The run of [DFT_slow] ends within its six
    statements on every input.  The run of [plot_taylor_approximations] ends
    on every object of [pyobj] within [14 + 8 * len(orders)] statements, and
    on a function whose call [func(xs)] returns or raises after [m] steps
    within [m] steps more: the loop makes at most one pass of at most eight
    statements for each entry of [orders].  Each run ends with what the
    helper returns.  When [func(xs)] does not return and the arguments let
    the run reach the call, the run does not end.  A run that succeeds has
    made one pass for each entry: it has drawn one curve for [func] and one
    for each entry of [orders]. *)
Theorem helpers_terminate
    (series : Expr -> Expr -> Expr -> Z -> Expr)
    (x0 : option Expr) (orders : list Z)
    (xrange : xrange_arg) (yrange : option (R * R)) (npts : nat) (fig : figure)
    (x : array_like) :
  run DFT_step 6 (DFT_asarray x) = Some (DFT_slow x) /\
  (forall o : pyobj,
     run (plot_taylor_step series (PyOther o) x0 orders xrange yrange npts)
         (14 + 8 * length orders) (If_callable, fig)
     = Some (plot_taylor_approximations series o x0 orders xrange yrange npts fig)) /\
  (forall (body : code) (m : nat) (r : result Expr),
     run (cstep body) m (enter body (Symbol "x")) = Some r ->
     exists out,
       run (plot_taylor_step series (PyDef body) x0 orders xrange yrange npts)
           (m + 14 + 8 * length orders) (If_callable, fig) = Some out /\
       match r with
       | Ok fx =>
           out = plot_taylor_approximations series (PyFunction (fun _ => fx))
                   x0 orders xrange yrange npts fig
       | Err _ => raises out.1 = true /\ out.2 = fig
       end) /\
  (forall (body : code) (xv : list R) (c : Expr),
     bound_arguments x0 xrange npts = Ok (xv, c) ->
     (forall m, run (cstep body) m (enter body (Symbol "x")) = None) ->
     forall n,
       run (plot_taylor_step series (PyDef body) x0 orders xrange yrange npts) n
           (If_callable, fig) = None) /\
  (forall (o : pyobj) (fig' : figure),
     plot_taylor_approximations series o x0 orders xrange yrange npts fig = (Ok (), fig') ->
     length (lines fig') = (length (lines fig) + S (length orders))%nat).
Proof.
  split; [apply DFT_slow_run|].
  split; [intros o; apply plot_taylor_run|].
  split; [intros body m r Hr; apply plot_taylor_run_def, Hr|].
  split; [intros body xv c Hargs Hbody; eapply plot_taylor_run_forever; eassumption|].
  intros o fig' Hrun.
  destruct (plot_taylor_writes series o x0 orders xrange yrange npts)
    as (out & e & Hw & Hno & Hyes).
  rewrite (Hw fig) in Hrun. injection Hrun as -> <-. simpl. rewrite length_app.
  destruct (callable o).
  - destruct (Hyes eq_refl) as (_ & _ & Hok). destruct (Hok eq_refl) as (Hlen & _). lia.
  - destruct (Hno eq_refl) as [Hout _]. discriminate.
Qed.

Lemma helpers_terminate_witness :
  (exists out,
     run (plot_taylor_step series_affine
            (PyDef (delayed 3 (fun a => Add a (Integer 1))))
            (Some (Integer 0)) [1%Z] (XBounds [0; 1]) None 200)
         (4 + 14 + 8 * 1) (If_callable, empty_figure) = Some out /\
     out = plot_taylor_approximations series_affine
             (PyFunction (fun _ => Add (Symbol "x") (Integer 1)))
             (Some (Integer 0)) [1%Z] (XBounds [0; 1]) None 200 empty_figure) /\
  (forall n,
     run (plot_taylor_step series_affine (PyDef forever)
            (Some (Integer 0)) [1%Z] (XBounds [0; 1]) None 200) n
         (If_callable, empty_figure) = None).
Proof.
  destruct (helpers_terminate series_affine (Some (Integer 0)) [1%Z] (XBounds [0; 1]) None 200
              empty_figure (NdFloat [])) as (_ & _ & Hends & Hnot & _).
  split.
  - apply (Hends (delayed 3 (fun a => Add a (Integer 1))) 4%nat
             (Ok (Add (Symbol "x") (Integer 1)))).
    reflexivity.
  - apply (Hnot forever (linspace 0 1 200) (Integer 0)).
    + reflexivity.
    + intros m. apply forever_never_returns.
Defined.

(** * Further properties of the notebook code *)

(** ** DFT_slow *)

Lemma to_floats_length (l : list scalar) (rs : list R) :
  to_floats l = Ok rs -> length rs = length l.
Proof.
  revert rs. induction l as [|s l IH]; simpl; intros rs.
  - intros [= <-]. reflexivity.
  - destruct (to_float s); simpl; [|discriminate].
    destruct (to_floats l) as [rs'|]; simpl; [|discriminate].
    intros [= <-]. simpl. rewrite (IH rs' eq_refl). reflexivity.
Qed.

Lemma to_floats_all_real (l : list scalar) :
  forallb is_real l = true -> exists rs, to_floats l = Ok rs.
Proof.
  induction l as [|s l IH]; simpl; [eauto|].
  intros H. apply andb_prop in H as [Hs Hl]. destruct s; [|discriminate].
  destruct (IH Hl) as [rs ->]. simpl. eauto.
Qed.

Lemma to_floats_some_complex (l : list scalar) :
  forallb is_real l = false ->
  to_floats l = Err (TypeError "can't convert complex to float").
Proof.
  induction l as [|s l IH]; simpl; [discriminate|].
  destruct s; simpl; [|reflexivity]. intros H. rewrite (IH H). reflexivity.
Qed.

Lemma DFT_slow_floats (l : list scalar) (rs : list R) :
  to_floats l = Ok rs -> DFT_slow (PySeq l) = Ok (DFT_textbook rs).
Proof.
  intros H. rewrite <- DFT_slow_array. unfold DFT_slow. simpl. rewrite H. reflexivity.
Qed.

(** X1.  What [DFT_slow] does with each kind of input: a bare real number
    fails at [x.shape[0]] with IndexError, a Python complex number anywhere
    fails in the coercion with TypeError, and every other 1-D input,
    the empty one included, yields as many components as it has entries. *)
Theorem DFT_slow_outcome (x : array_like) :
  match x with
  | PyNumber (SReal _) => DFT_slow x = Err (IndexError "tuple index out of range")
  | PyNumber (SComplex _) => DFT_slow x = Err (TypeError "can't convert complex to float")
  | PySeq l =>
      if forallb is_real l
      then exists X, DFT_slow x = Ok X /\ length X = entries x
      else DFT_slow x = Err (TypeError "can't convert complex to float")
  | NdFloat _ | NdComplex _ => exists X, DFT_slow x = Ok X /\ length X = entries x
  end.
Proof.
  destruct x as [[r|z]|l|l|l]; try reflexivity.
  - destruct (forallb is_real l) eqn:Hl.
    + destruct (to_floats_all_real l Hl) as [rs Hrs].
      exists (DFT_textbook rs). split; [apply DFT_slow_floats, Hrs|].
      rewrite length_DFT_textbook. simpl. apply to_floats_length, Hrs.
    + unfold DFT_slow. simpl. rewrite (to_floats_some_complex l Hl). reflexivity.
  - exists (DFT_textbook l). split; [apply DFT_slow_array|apply length_DFT_textbook].
  - exists (DFT_textbook (map re l)). split.
    + rewrite <- DFT_slow_array. reflexivity.
    + rewrite length_DFT_textbook. simpl. apply length_map.
Qed.

Lemma Csum_map_lincomb {A} (a b : R) (u v : A -> C) (l : list A) :
  Csum (map (fun n => Cadd (Cscale a (u n)) (Cscale b (v n))) l)
  = Cadd (Cscale a (Csum (map u l))) (Cscale b (Csum (map v l))).
Proof.
  induction l as [|n l IH]; simpl.
  - apply C_eq; unfold Cadd, Cscale, C0, re, im; simpl; ring.
  - rewrite IH. apply C_eq; unfold Cadd, Cscale, re, im; simpl; ring.
Qed.

Lemma nth_zip_with_R (f : R -> R -> R) (xs ys : list R) (n : nat) :
  (n < length xs)%nat -> (n < length ys)%nat ->
  nth n (zip_with f xs ys) 0 = f (nth n xs 0) (nth n ys 0).
Proof.
  revert ys n. induction xs as [|x xs IH]; intros [|y ys] [|n]; simpl; try lia; [reflexivity|].
  intros H1 H2. apply IH; lia.
Qed.

(** X2.  The transform is linear: on two real inputs of the same length,
    the transform of [a*x + b*y] is [a] times the transform of [x] plus [b]
    times the transform of [y], component by component. *)
Theorem DFT_slow_linear (a b : R) (xs ys : list R) (X Y : list C) :
  length xs = length ys ->
  DFT_slow (NdFloat xs) = Ok X ->
  DFT_slow (NdFloat ys) = Ok Y ->
  DFT_slow (NdFloat (zip_with (fun x y => a * x + b * y) xs ys))
  = Ok (zip_with (fun Xk Yk => Cadd (Cscale a Xk) (Cscale b Yk)) X Y).
Proof.
  intros Hlen HX HY. rewrite DFT_slow_array in HX, HY |- *.
  injection HX as <-. injection HY as <-. f_equal.
  unfold DFT_textbook. rewrite length_zip_with, <- Hlen, Nat.min_id.
  set (N := length xs).
  rewrite zip_with_fmap_l, zip_with_fmap_r, zip_with_diag.
  apply map_ext_in. intros k _.
  rewrite <- Csum_map_lincomb. f_equal. apply map_ext_in. intros n Hn.
  apply in_seq in Hn. rewrite nth_zip_with_R by (fold N; lia).
  apply C_eq; unfold Cadd, Cscale, Cmul, RtoC, re, im; simpl; ring.
Qed.

Lemma DFT_slow_linear_witness :
  exists X Y,
    DFT_slow (NdFloat [1; 0]) = Ok X /\ DFT_slow (NdFloat [0; 1]) = Ok Y /\
    DFT_slow (NdFloat (zip_with (fun x y => 2 * x + 3 * y) [1; 0] [0; 1]))
    = Ok (zip_with (fun Xk Yk => Cadd (Cscale 2 Xk) (Cscale 3 Yk)) X Y).
Proof.
  eexists _, _. split; [reflexivity|]. split; [reflexivity|].
  apply (DFT_slow_linear 2 3 [1; 0] [0; 1]); reflexivity.
Defined.

Lemma twiddle_row_0 (N n : nat) : twiddle N 0 n = (1, 0).
Proof.
  rewrite twiddle_cos_sin. simpl INR.
  replace (2 * PI * 0 * INR n / INR N) with 0 by (unfold Rdiv; ring).
  rewrite cos_0, sin_0. f_equal. ring.
Qed.

Lemma Csum_real (u : nat -> R) (l : list nat) :
  Csum (map (fun n => RtoC (u n)) l) = RtoC (Rsum (map u l)).
Proof.
  induction l as [|n l IH]; simpl; [reflexivity|].
  rewrite IH. apply C_eq; unfold Cadd, RtoC, re, im; simpl; ring.
Qed.

Lemma map_nth_seq (xs : list R) : map (fun n => nth n xs 0) (seq 0 (length xs)) = xs.
Proof.
  apply list_eq. intros i. rewrite list_lookup_fmap.
  destruct (decide (i < length xs)%nat) as [Hi|Hi].
  - rewrite lookup_seq_lt by exact Hi. simpl.
    destruct (lookup_lt_is_Some_2 xs i Hi) as [v Hv]. rewrite Hv.
    f_equal. apply nth_lookup_Some with (d := 0) in Hv. exact Hv.
  - rewrite lookup_seq_ge by lia. simpl. symmetry. apply lookup_ge_None. lia.
Qed.

(** X3.  Component 0 of the transform of a non-empty real input is the sum
    of its samples. *)
Theorem DFT_slow_dc (xs : list R) (X : list C) :
  xs <> [] ->
  DFT_slow (NdFloat xs) = Ok X ->
  X !! 0%nat = Some (RtoC (Rsum xs)).
Proof.
  intros Hne HX. rewrite DFT_slow_array in HX. injection HX as <-.
  unfold DFT_textbook. rewrite list_lookup_fmap, lookup_seq_lt
    by (destruct xs; [contradiction|simpl; lia]).
  simpl. f_equal.
  rewrite (map_ext _ (fun n => RtoC (nth n xs 0))).
  - rewrite Csum_real, map_nth_seq. reflexivity.
  - intros n. rewrite twiddle_row_0.
    apply C_eq; unfold Cmul, RtoC, re, im; simpl; ring.
Qed.

Lemma DFT_slow_dc_witness :
  exists X, DFT_slow (NdFloat [1; 2; 3]) = Ok X /\ X !! 0%nat = Some (RtoC (Rsum [1; 2; 3])).
Proof.
  eexists. split; [reflexivity|].
  apply (DFT_slow_dc [1; 2; 3]); [discriminate|reflexivity].
Defined.

Lemma twiddle_mirror (N k n : nat) :
  (0 < k < N)%nat -> twiddle N (N - k) n = Cconj (twiddle N k n).
Proof.
  intros Hk. rewrite !twiddle_cos_sin. unfold Cconj, re, im. simpl.
  assert (HN : INR N <> 0) by (apply not_0_INR; lia).
  rewrite minus_INR by lia.
  replace (2 * PI * (INR N - INR k) * INR n / INR N)
    with (- (2 * PI * INR k * INR n / INR N) + 2 * INR n * PI) by (field; exact HN).
  rewrite cos_period, sin_period, cos_neg, sin_neg. reflexivity.
Qed.

Lemma Csum_conj {A} (u : A -> C) (l : list A) :
  Csum (map (fun n => Cconj (u n)) l) = Cconj (Csum (map u l)).
Proof.
  induction l as [|n l IH]; simpl.
  - apply C_eq; unfold Cconj, C0, re, im; simpl; ring.
  - rewrite IH. apply C_eq; unfold Cadd, Cconj, re, im; simpl; ring.
Qed.

(** X4.  The transform of a real input is conjugate-symmetric: component
    [N - k] is the complex conjugate of component [k], for 0 < k < N. *)
Theorem DFT_slow_conjugate_symmetric (xs : list R) (X : list C) (k : nat) (Xk : C) :
  DFT_slow (NdFloat xs) = Ok X ->
  (0 < k < length xs)%nat ->
  X !! k = Some Xk ->
  X !! (length xs - k)%nat = Some (Cconj Xk).
Proof.
  intros HX Hk HXk. rewrite DFT_slow_array in HX. injection HX as <-.
  unfold DFT_textbook in *. revert HXk.
  rewrite !list_lookup_fmap, !lookup_seq_lt by lia. simpl. intros [= <-]. f_equal.
  rewrite <- Csum_conj. f_equal. apply map_ext. intros n.
  rewrite twiddle_mirror by exact Hk.
  apply C_eq; unfold Cmul, Cconj, RtoC, re, im; simpl; ring.
Qed.

Lemma DFT_slow_conjugate_symmetric_witness :
  exists X Xk,
    DFT_slow (NdFloat [1; 2; 3]) = Ok X /\ X !! 1%nat = Some Xk /\
    X !! 2%nat = Some (Cconj Xk).
Proof.
  eexists _, _. split; [reflexivity|]. split; [reflexivity|].
  apply (DFT_slow_conjugate_symmetric [1; 2; 3] _ 1); [reflexivity|simpl; lia|reflexivity].
Defined.

Lemma Cmod_nonneg (z : C) : 0 <= Cmod z.
Proof. apply sqrt_pos. Qed.

Lemma Cmod_sqr (z : C) : Cmod z * Cmod z = re z ^ 2 + im z ^ 2.
Proof. unfold Cmod. apply sqrt_sqrt. nra. Qed.

Lemma Cmod_triangle (a b : C) : Cmod (Cadd a b) <= Cmod a + Cmod b.
Proof.
  apply Rsqr_incr_0_var;
    [|pose proof (Cmod_nonneg a); pose proof (Cmod_nonneg b); lra].
  unfold Rsqr. rewrite Cmod_sqr.
  pose proof (Cmod_sqr a) as Ha. pose proof (Cmod_sqr b) as Hb.
  pose proof (sqrt_cauchy (re a) (im a) (re b) (im b)) as Hc.
  rewrite !Rsqr_pow2 in Hc. fold (Cmod a) (Cmod b) in Hc.
  unfold Cadd, re, im in *. cbn [fst snd]. nra.
Qed.

Lemma Cmod_real_mul (r : R) (w : C) : Cmod (Cmul (RtoC r) w) = Rabs r * Cmod w.
Proof.
  destruct w as [w1 w2]. unfold Cmod, Cmul, RtoC, re, im. cbn [fst snd].
  replace ((r * w1 - 0 * w2) ^ 2 + (r * w2 + 0 * w1) ^ 2)
    with (r ^ 2 * (w1 ^ 2 + w2 ^ 2)) by ring.
  rewrite sqrt_mult_alt by nra. f_equal.
  rewrite <- Rsqr_pow2. apply sqrt_Rsqr_abs.
Qed.

Lemma Cmod_twiddle (N k n : nat) : Cmod (twiddle N k n) = 1.
Proof.
  rewrite twiddle_cos_sin. unfold Cmod, re, im. cbn [fst snd].
  set (t := 2 * PI * INR k * INR n / INR N).
  pose proof (sin2_cos2 t) as H. rewrite !Rsqr_pow2 in H.
  replace (cos t ^ 2 + (- sin t) ^ 2) with 1 by (rewrite <- H; ring).
  apply sqrt_1.
Qed.

Lemma Cmod_Csum_le {A} (u : A -> C) (l : list A) :
  Cmod (Csum (map u l)) <= Rsum (map (fun n => Cmod (u n)) l).
Proof.
  induction l as [|n l IH]; simpl.
  - unfold Cmod, C0, re, im. cbn [fst snd].
    replace (0 ^ 2 + 0 ^ 2) with 0 by ring. rewrite sqrt_0. lra.
  - eapply Rle_trans; [apply Cmod_triangle|]. lra.
Qed.

(** X5.  No component of the transform of a real input is larger in modulus
    than the sum of the absolute values of the samples. *)
Theorem DFT_slow_bounded (xs : list R) (X : list C) (k : nat) (Xk : C) :
  DFT_slow (NdFloat xs) = Ok X ->
  X !! k = Some Xk ->
  Cmod Xk <= Rsum (map Rabs xs).
Proof.
  intros HX HXk. rewrite DFT_slow_array in HX. injection HX as <-.
  unfold DFT_textbook in HXk. rewrite list_lookup_fmap in HXk.
  destruct (seq 0 (length xs) !! k) as [k'|]; [|discriminate].
  injection HXk as <-.
  eapply Rle_trans; [apply Cmod_Csum_le|].
  rewrite (map_ext _ (fun n => Rabs (nth n xs 0))).
  - rewrite <- (map_map (fun n => nth n xs 0) Rabs), map_nth_seq. lra.
  - intros n. rewrite Cmod_real_mul, Cmod_twiddle. ring.
Qed.

Lemma DFT_slow_bounded_witness :
  exists X Xk,
    DFT_slow (NdFloat [1; -2]) = Ok X /\ X !! 1%nat = Some Xk /\
    Cmod Xk <= Rsum (map Rabs [1; -2]).
Proof.
  eexists _, _. split; [reflexivity|]. split; [reflexivity|].
  eapply (DFT_slow_bounded [1; -2] _ 1); reflexivity.
Defined.

Lemma Rsum_app (l1 l2 : list R) : Rsum (l1 ++ l2) = Rsum l1 + Rsum l2.
Proof. induction l1 as [|a l1 IH]; simpl; [ring|]. rewrite IH. ring. Qed.

Lemma Rsum_seq_S (f : nat -> R) (m : nat) :
  Rsum (map f (seq 0 (S m))) = Rsum (map f (seq 0 m)) + f m.
Proof. rewrite seq_S, map_app, Rsum_app. simpl. ring. Qed.

Lemma Csum_parts {A} (u : A -> C) (l : list A) :
  Csum (map u l) = (Rsum (map (fun n => re (u n)) l), Rsum (map (fun n => im (u n)) l)).
Proof.
  induction l as [|n l IH]; simpl; [reflexivity|]. rewrite IH. reflexivity.
Qed.

(** The sums of the cosines and of the sines of the multiples of an angle,
    telescoped with the factor [2 sin (t/2)]. *)
Lemma cos_sum_telescope (t : R) (m : nat) :
  2 * sin (t / 2) * Rsum (map (fun n => cos (INR n * t)) (seq 0 m))
  = sin (INR m * t - t / 2) + sin (t / 2).
Proof.
  induction m as [|m IH].
  - simpl. replace (0 * t - t / 2) with (- (t / 2)) by ring. rewrite sin_neg. ring.
  - rewrite Rsum_seq_S, Rmult_plus_distr_l, IH, S_INR.
    replace ((INR m + 1) * t - t / 2) with (INR m * t + t / 2) by field.
    rewrite sin_minus, sin_plus. ring.
Qed.

Lemma sin_sum_telescope (t : R) (m : nat) :
  2 * sin (t / 2) * Rsum (map (fun n => sin (INR n * t)) (seq 0 m))
  = cos (t / 2) - cos (INR m * t - t / 2).
Proof.
  induction m as [|m IH].
  - simpl. replace (0 * t - t / 2) with (- (t / 2)) by ring. rewrite cos_neg. ring.
  - rewrite Rsum_seq_S, Rmult_plus_distr_l, IH, S_INR.
    replace ((INR m + 1) * t - t / 2) with (INR m * t + t / 2) by field.
    rewrite cos_minus, cos_plus. ring.
Qed.

(** The N-th roots of unity other than 1 sum to zero. *)
Lemma twiddle_sum_zero (N k : nat) :
  (0 < k < N)%nat ->
  Rsum (map (fun n => cos (INR n * (2 * PI * INR k / INR N))) (seq 0 N)) = 0 /\
  Rsum (map (fun n => sin (INR n * (2 * PI * INR k / INR N))) (seq 0 N)) = 0.
Proof.
  intros Hk. set (t := 2 * PI * INR k / INR N).
  assert (HN : 0 < INR N) by (apply lt_0_INR; lia).
  assert (Hk0 : 0 < INR k) by (apply lt_0_INR; lia).
  assert (HkN : INR k < INR N) by (apply lt_INR; lia).
  assert (Hfull : INR N * t = 2 * INR k * PI) by (unfold t; field; lra).
  assert (Hhalf : 0 < t / 2 < PI).
  { pose proof PI_RGT_0. unfold t. split.
    - apply Rdiv_lt_0_compat; [|lra]. apply Rdiv_lt_0_compat; [nra|lra].
    - apply Rmult_lt_reg_r with (r := INR N); [exact HN|].
      replace (2 * PI * INR k / INR N / 2 * INR N) with (PI * INR k) by (field; lra).
      nra. }
  assert (Hs : sin (t / 2) <> 0).
  { apply Rgt_not_eq. apply sin_gt_0; apply Hhalf. }
  pose proof (cos_sum_telescope t N) as Hc. pose proof (sin_sum_telescope t N) as Hsn.
  rewrite Hfull in Hc, Hsn.
  replace (2 * INR k * PI - t / 2) with (- (t / 2) + 2 * INR k * PI) in Hc, Hsn by ring.
  rewrite sin_period, sin_neg in Hc. rewrite cos_period, cos_neg in Hsn.
  split.
  - apply Rmult_eq_reg_l with (r := 2 * sin (t / 2)); [|lra]. rewrite Hc. ring.
  - apply Rmult_eq_reg_l with (r := 2 * sin (t / 2)); [|lra]. rewrite Hsn. ring.
Qed.

Lemma nth_replicate_R (N n : nat) (c : R) : (n < N)%nat -> nth n (replicate N c) 0 = c.
Proof.
  intros Hn. apply nth_lookup_Some with (d := 0) (x := c).
  apply lookup_replicate. split; [reflexivity|exact Hn].
Qed.

Lemma Rsum_scale {A} (c : R) (f : A -> R) (l : list A) :
  Rsum (map (fun n => c * f n) l) = c * Rsum (map f l).
Proof. induction l as [|n l IH]; simpl; [ring|]. rewrite IH. ring. Qed.

(** X6.  A constant signal has only a zero-frequency component: the
    transform of N copies of [c] is [N * c] at index 0 and zero at every
    other index. *)
Theorem DFT_slow_constant (c : R) (N k : nat) (X : list C) :
  DFT_slow (NdFloat (replicate N c)) = Ok X ->
  (k < N)%nat ->
  X !! k = Some (if decide (k = 0%nat) then RtoC (INR N * c) else C0).
Proof.
  intros HX Hk. rewrite DFT_slow_array in HX. injection HX as <-.
  unfold DFT_textbook. rewrite length_replicate.
  rewrite list_lookup_fmap, lookup_seq_lt by exact Hk. simpl. f_equal.
  rewrite (map_ext_in _ (fun n => Cscale c (twiddle N k n))).
  2:{ intros n Hn. apply in_seq in Hn. rewrite nth_replicate_R by lia.
      apply C_eq; unfold Cmul, Cscale, RtoC, re, im; simpl; ring. }
  rewrite Csum_parts.
  rewrite (map_ext _ (fun n => c * cos (INR n * (2 * PI * INR k / INR N)))).
  2:{ intros n. rewrite twiddle_cos_sin. unfold Cscale, re, im. cbn [fst snd].
      do 2 f_equal. unfold Rdiv. ring. }
  rewrite (map_ext (fun n => im _) (fun n => (- c) * sin (INR n * (2 * PI * INR k / INR N)))).
  2:{ intros n. rewrite twiddle_cos_sin. unfold Cscale, re, im. cbn [fst snd].
      replace (2 * PI * INR k * INR n / INR N) with (INR n * (2 * PI * INR k / INR N))
        by (unfold Rdiv; ring).
      ring. }
  rewrite !Rsum_scale. case_decide as Hk0.
  - subst k. simpl INR.
    rewrite (map_ext _ (fun _ => 1)), (map_ext (fun n => sin _) (fun _ => 0)).
    + assert (Hones : forall m, Rsum (map (fun _ : nat => 1) (seq 0 m)) = INR m).
      { induction m as [|m IH]; [reflexivity|]. rewrite Rsum_seq_S, IH, S_INR. ring. }
      assert (Hzeros : forall m, Rsum (map (fun _ : nat => 0) (seq 0 m)) = 0).
      { induction m as [|m IH]; [reflexivity|]. rewrite Rsum_seq_S, IH. ring. }
      rewrite Hones, Hzeros. unfold RtoC. f_equal; ring.
    + intros n. replace (INR n * (2 * PI * 0 / INR N)) with 0 by (unfold Rdiv; ring).
      apply sin_0.
    + intros n. replace (INR n * (2 * PI * 0 / INR N)) with 0 by (unfold Rdiv; ring).
      apply cos_0.
  - destruct (twiddle_sum_zero N k) as [Hc Hs]; [lia|].
    rewrite Hc, Hs. unfold C0. f_equal; ring.
Qed.

Lemma DFT_slow_constant_witness :
  exists X, DFT_slow (NdFloat (replicate 4 5)) = Ok X /\ X !! 3%nat = Some C0.
Proof.
  eexists. split; [reflexivity|].
  apply (DFT_slow_constant 5 4 3); [reflexivity|lia].
Defined.

(** ** atomic_func and the image array *)

Lemma sin_period_Z (t : R) (k : Z) : sin (t + 2 * IZR k * PI) = sin t.
Proof.
  destruct (Z.le_gt_cases 0 k) as [Hk|Hk].
  - rewrite <- (Z2Nat.id k Hk), <- INR_IZR_INZ. apply sin_period.
  - rewrite <- (sin_period (t + 2 * IZR k * PI) (Z.to_nat (- k))).
    f_equal. rewrite INR_IZR_INZ, Z2Nat.id by lia. rewrite opp_IZR. ring.
Qed.

Lemma atomic_func_shift (x y a b : R) (m n : Z) :
  a + b = 16 * IZR m -> a - 2 * b = 32 * IZR n ->
  atomic_func (x + a) (y + b) = atomic_func x y.
Proof.
  intros Hm Hn. unfold atomic_func.
  replace (4 * (x + a + (y + b)) * 2 * PI / 64)
    with (4 * (x + y) * 2 * PI / 64 + 2 * IZR m * PI)
    by (replace (x + a + (y + b)) with (x + y + (a + b)) by ring; rewrite Hm; field).
  replace (2 * (x + a - 2 * (y + b)) * 2 * PI / 64)
    with (2 * (x - 2 * y) * 2 * PI / 64 + 2 * IZR n * PI)
    by (replace (x + a - 2 * (y + b)) with (x - 2 * y + (a - 2 * b)) by ring; rewrite Hn; field).
  rewrite !sin_period_Z. reflexivity.
Qed.

(** X7.  [atomic_func] repeats along a whole lattice of translations, not only
    along the axes: it is unchanged by every shift [(a, b)] for which
    [a + b] is a multiple of 16 and [a - 2 b] is a multiple of 32, in either
    direction; [(32/3, 16/3)] is such a shift. *)
Theorem atomic_func_lattice (x y a b : R) (m n : Z) :
  a + b = 16 * IZR m -> a - 2 * b = 32 * IZR n ->
  atomic_func (x + a) (y + b) = atomic_func x y /\
  atomic_func (x - a) (y - b) = atomic_func x y /\
  atomic_func (x + 32 / 3) (y + 16 / 3) = atomic_func x y.
Proof.
  intros Hm Hn. split; [|split].
  - apply (atomic_func_shift x y a b m n Hm Hn).
  - apply (atomic_func_shift x y (- a) (- b) (- m) (- n)); rewrite opp_IZR; lra.
  - apply (atomic_func_shift x y (32 / 3) (16 / 3) 1 0); lra.
Qed.

Lemma atomic_func_lattice_witness :
  atomic_func (1 + 32) (2 + 16) = atomic_func 1 2.
Proof.
  apply (atomic_func_lattice 1 2 32 16 3 0); lra.
Defined.

Lemma atomic_func_bounds (x y : R) : 0 <= atomic_func x y <= 1.
Proof.
  unfold atomic_func.
  pose proof (SIN_bound (4 * (x + y) * 2 * PI / 64)) as [Ha1 Ha2].
  pose proof (SIN_bound (2 * (x - 2 * y) * 2 * PI / 64)) as [Hb1 Hb2].
  set (a := sin _) in *. set (b := sin _) in *.
  split; nra.
Qed.

(** X8.  The range of [atomic_func] is the whole interval [0, 1]: every
    value between 0 and 1 is taken at some point. *)
Theorem atomic_func_onto (v : R) :
  0 <= v <= 1 -> exists x y : R, atomic_func x y = v.
Proof.
  intros Hv. set (alpha := asin (2 * v - 1)).
  pose proof PI_RGT_0 as Hpi.
  set (y := (8 * alpha / PI - 8) / 3). set (x := 8 + 2 * y).
  exists x, y. unfold atomic_func.
  replace (4 * (x + y) * 2 * PI / 64) with alpha by (unfold x, y; field; lra).
  replace (2 * (x - 2 * y) * 2 * PI / 64) with (PI / 2) by (unfold x; field).
  unfold alpha. rewrite sin_asin by lra. rewrite sin_PI2. field.
Qed.

Lemma atomic_func_onto_witness : exists x y : R, atomic_func x y = 1 / 4.
Proof. apply (atomic_func_onto (1 / 4)). lra. Defined.

Lemma lookup2_atomic_image (i j : nat) :
  (i < 256)%nat -> (j < 256)%nat ->
  lookup2 atomic_image i j = Some (atomic_func (INR j) (INR i)).
Proof.
  intros Hi Hj. unfold atomic_image.
  destruct (lookup2_meshgrid 256 256 i j Hi Hj) as [HX HY].
  destruct (meshgrid (arange_f 256) (arange_f 256)) as [X Y]. simpl in HX, HY.
  rewrite lookup2_map2, HX, HY. reflexivity.
Qed.

(** X9.  The image array [Z] is made of identical tiles, 32 pixels wide and
    16 pixels high: entry (i, j) is [atomic_func] at the point (x, y) = (j, i),
    lies in [0, 1], and is found again 32 columns to the right and 16 rows
    further up wherever those positions are on the 256 x 256 grid. *)
Theorem atomic_image_tiles (i j : nat) :
  (i < 256)%nat -> (j < 256)%nat ->
  exists z,
    lookup2 atomic_image i j = Some z /\
    z = atomic_func (INR j) (INR i) /\
    0 <= z <= 1 /\
    ((j + 32 < 256)%nat -> lookup2 atomic_image i (j + 32) = Some z) /\
    ((i + 16 < 256)%nat -> lookup2 atomic_image (i + 16) j = Some z).
Proof.
  intros Hi Hj. exists (atomic_func (INR j) (INR i)).
  split; [apply lookup2_atomic_image; assumption|].
  split; [reflexivity|]. split; [apply atomic_func_bounds|]. split.
  - intros Hj'. rewrite lookup2_atomic_image by assumption. f_equal.
    rewrite plus_INR. replace (INR 32) with 32 by (rewrite INR_IZR_INZ; reflexivity).
    rewrite <- (Rplus_0_r (INR i)) at 1.
    apply (atomic_func_shift (INR j) (INR i) 32 0 2 1); simpl; lra.
  - intros Hi'. rewrite lookup2_atomic_image by assumption. f_equal.
    rewrite plus_INR. replace (INR 16) with 16 by (rewrite INR_IZR_INZ; reflexivity).
    rewrite <- (Rplus_0_r (INR j)) at 1.
    apply (atomic_func_shift (INR j) (INR i) 0 16 1 (-1)); simpl; lra.
Qed.

Lemma atomic_image_tiles_witness :
  exists z, lookup2 atomic_image 3 5 = Some z /\ lookup2 atomic_image 3 37 = Some z.
Proof.
  destruct (atomic_image_tiles 3 5) as (z & Hz & _ & _ & Hright & _); [lia|lia|].
  exists z. split; [exact Hz|]. apply Hright. lia.
Defined.

(** ** aperture and the mask *)

(** X10.  Edge behaviour of [aperture]: the centre of the circle is never
    reported as outside, whatever the size; only the square of the size
    counts, so a negative size acts as its absolute value; a point outside a
    circle is outside every circle about the same centre whose size is not
    larger in absolute value; and moving point and centre together changes
    nothing. *)
Theorem aperture_edges (X Y xoffset yoffset size : R) :
  aperture xoffset yoffset xoffset yoffset size = false /\
  aperture X Y xoffset yoffset (- size) = aperture X Y xoffset yoffset size /\
  (forall size' : R,
     Rabs size' <= Rabs size ->
     aperture X Y xoffset yoffset size = true ->
     aperture X Y xoffset yoffset size' = true) /\
  (forall dx dy : R,
     aperture (X + dx) (Y + dy) (xoffset + dx) (yoffset + dy) size
     = aperture X Y xoffset yoffset size).
Proof.
  split; [|split; [|split]].
  - unfold aperture. apply bool_decide_eq_false. nra.
  - unfold aperture. apply bool_decide_ext. nra.
  - intros size' Hs. unfold aperture. rewrite !bool_decide_eq_true. intros H.
    assert (Hsq : size' ^ 2 <= size ^ 2).
    { rewrite <- !Rsqr_pow2. apply Rsqr_le_abs_1, Hs. }
    lra.
  - intros dx dy. unfold aperture. apply bool_decide_ext.
    replace (X + dx - (xoffset + dx)) with (X - xoffset) by ring.
    replace (Y + dy - (yoffset + dy)) with (Y - yoffset) by ring. tauto.
Qed.

(** Whether the mask zeroes the entry at row [i], column [j]. *)
Lemma masked_iff (i j : nat) :
  aperture (INR j) (INR i) 128 128 3 && aperture (INR j) (INR i) 150 128 3 = true <->
  outside_circle 128 128 3 (INR j) (INR i) /\ outside_circle 150 128 3 (INR j) (INR i).
Proof. rewrite andb_true_iff, !aperture_true. reflexivity. Qed.

Lemma mask_spectrum_lookup (K : list (list C)) :
  has_shape K 256 256 = true ->
  exists P, mask_spectrum K = Ok P /\
    forall i j, (i < 256)%nat -> (j < 256)%nat ->
      lookup2 P i j
      = if aperture (INR j) (INR i) 128 128 3 && aperture (INR j) (INR i) 150 128 3
        then Some C0 else lookup2 K i j.
Proof.
  intros HK. unfold mask_spectrum. pose proof mask_entry as HB.
  destruct (meshgrid (arange_f 256) (arange_f 256)) as [X Y].
  set (B := map2 andb _ _) in *.
  destruct (set_items_spec (np_where B) C0 K) as (P & Hrun & Hlook).
  { apply Forall_forall. intros [i j] Hin. simpl.
    apply elem_of_np_where in Hin. rewrite HB in Hin.
    case_decide as Hij; [|discriminate]. destruct Hij.
    eapply has_shape_lookup2; eauto. }
  exists P. split; [exact Hrun|]. intros i j Hi Hj.
  rewrite (Hlook i j) by (eapply has_shape_lookup2; eauto).
  destruct (aperture (INR j) (INR i) 128 128 3 && aperture (INR j) (INR i) 150 128 3) eqn:Hb.
  - rewrite decide_True; [reflexivity|].
    apply elem_of_np_where. rewrite HB, decide_True by tauto. rewrite Hb. reflexivity.
  - rewrite decide_False; [reflexivity|]. intros Hin.
    apply elem_of_np_where in Hin. rewrite HB, decide_True in Hin by tauto. congruence.
Qed.

Lemma has_shape_lengths {A} (a : list (list A)) (rows cols : nat) :
  has_shape a rows cols = true <-> map length a = replicate rows cols.
Proof.
  unfold has_shape. rewrite andb_true_iff, bool_decide_eq_true, forallb_forall. split.
  - intros [<- Hrows]. induction a as [|row a IH]; [reflexivity|]. simpl. f_equal.
    + specialize (Hrows row (or_introl eq_refl)). apply bool_decide_eq_true in Hrows. exact Hrows.
    + apply IH. intros r Hr. apply Hrows. right. exact Hr.
  - intros H. split.
    + rewrite <- (length_map length a), H. apply length_replicate.
    + intros row Hin. apply bool_decide_eq_true.
      apply (in_map length) in Hin. rewrite H in Hin.
      apply list_elem_of_In, elem_of_replicate in Hin. apply Hin.
Qed.

Lemma set_item_lengths {A} (P P' : list (list A)) (ij : nat * nat) (v : A) :
  set_item P ij v = Ok P' -> map length P' = map length P.
Proof.
  unfold set_item. destruct (lookup2 P ij.1 ij.2); [|discriminate]. intros [= <-].
  apply list_eq. intros i. rewrite !list_lookup_fmap.
  destruct (decide (ij.1 = i)) as [<-|Hne].
  - rewrite list_lookup_alter_eq. destruct (P !! ij.1); simpl; [|reflexivity].
    rewrite length_insert. reflexivity.
  - rewrite list_lookup_alter_ne by exact Hne. reflexivity.
Qed.

Lemma set_items_lengths {A} (idx : list (nat * nat)) (v : A) (P P' : list (list A)) :
  set_items P idx v = Ok P' -> map length P' = map length P.
Proof.
  revert P. induction idx as [|ij idx IH]; intros P; simpl.
  - intros [= <-]. reflexivity.
  - destruct (set_item P ij v) as [P1|] eqn:H1; simpl; [|discriminate].
    intros H. rewrite (IH _ H). eapply set_item_lengths, H1.
Qed.

Lemma lookup2_ext {A} (a b : list (list A)) (rows cols : nat) :
  has_shape a rows cols = true -> has_shape b rows cols = true ->
  (forall i j, (i < rows)%nat -> (j < cols)%nat -> lookup2 a i j = lookup2 b i j) ->
  a = b.
Proof.
  intros Ha Hb Heq. apply has_shape_lengths in Ha, Hb.
  assert (Hlen : forall (c : list (list A)) i row,
            map length c = replicate rows cols -> c !! i = Some row ->
            (i < rows)%nat /\ length row = cols).
  { intros c i row Hc Hrow.
    assert (H : map length c !! i = Some (length row))
      by (rewrite list_lookup_fmap, Hrow; reflexivity).
    rewrite Hc in H. apply lookup_replicate in H. destruct H as [<- Hi]. auto. }
  apply list_eq. intros i.
  destruct (a !! i) as [ra|] eqn:Hra, (b !! i) as [rb|] eqn:Hrb.
  - destruct (Hlen a i ra Ha Hra) as [Hi Hla], (Hlen b i rb Hb Hrb) as [_ Hlb].
    f_equal. apply list_eq. intros j.
    destruct (decide (j < cols)%nat) as [Hj|Hj].
    + specialize (Heq i j Hi Hj). unfold lookup2 in Heq. rewrite Hra, Hrb in Heq. exact Heq.
    + rewrite !lookup_ge_None_2 by lia. reflexivity.
  - apply lookup_lt_Some in Hra. apply lookup_ge_None in Hrb.
    rewrite <- (length_map length a), <- (length_map length b), Ha, Hb in *.
    rewrite length_replicate in *. lia.
  - apply lookup_lt_Some in Hrb. apply lookup_ge_None in Hra.
    rewrite <- (length_map length a), <- (length_map length b), Ha, Hb in *.
    rewrite length_replicate in *. lia.
  - reflexivity.
Qed.

(** X11.  On a 256 x 256 spectrum the masking statement keeps the shape of
    the array, and masking the masked array again changes nothing. *)
Theorem mask_spectrum_idempotent (K P : list (list C)) :
  has_shape K 256 256 = true ->
  mask_spectrum K = Ok P ->
  has_shape P 256 256 = true /\ mask_spectrum P = Ok P.
Proof.
  intros HK HP.
  assert (HshapeP : has_shape P 256 256 = true).
  { apply has_shape_lengths. apply has_shape_lengths in HK. rewrite <- HK.
    unfold mask_spectrum in HP.
    destruct (meshgrid (arange_f 256) (arange_f 256)) as [X Y].
    eapply set_items_lengths, HP. }
  split; [exact HshapeP|].
  destruct (mask_spectrum_lookup K HK) as (P0 & HP0 & HlookP).
  rewrite HP in HP0. injection HP0 as <-.
  destruct (mask_spectrum_lookup P HshapeP) as (P2 & HP2 & HlookP2).
  rewrite HP2. f_equal.
  assert (HshapeP2 : has_shape P2 256 256 = true).
  { apply has_shape_lengths. apply has_shape_lengths in HshapeP. rewrite <- HshapeP.
    unfold mask_spectrum in HP2.
    destruct (meshgrid (arange_f 256) (arange_f 256)) as [X Y].
    eapply set_items_lengths, HP2. }
  apply (lookup2_ext P2 P 256 256 HshapeP2 HshapeP).
  intros i j Hi Hj. rewrite (HlookP2 i j Hi Hj), (HlookP i j Hi Hj).
  destruct (aperture (INR j) (INR i) 128 128 3 && aperture (INR j) (INR i) 150 128 3);
    reflexivity.
Qed.

Lemma mask_spectrum_idempotent_witness :
  exists P,
    mask_spectrum (replicate 256 (replicate 256 C0)) = Ok P /\ mask_spectrum P = Ok P.
Proof.
  destruct (mask_spectrum_lookup (replicate 256 (replicate 256 C0))) as (P & HP & _);
    [vm_compute; reflexivity|].
  exists P. split; [exact HP|].
  apply (mask_spectrum_idempotent (replicate 256 (replicate 256 C0)) P);
    [vm_compute; reflexivity|exact HP].
Defined.

Lemma INR_numeral (n : nat) : INR n = IZR (Z.of_nat n).
Proof. apply INR_IZR_INZ. Qed.

(** X12.  The outlines drawn over the spectrum are wider than the mask.
    They have radius [3**2 = 9], the mask has radius 3: every entry of the
    masked spectrum that is not zero lies within a third of an outline's
    radius from its centre, and the entry at (x, y) = (133, 128), well inside
    the first outline, is zero. *)
Theorem drawn_outlines_wider (K P : list (list C)) :
  has_shape K 256 256 = true ->
  mask_spectrum K = Ok P ->
  circle_radius aperture1 = 9 /\ circle_radius aperture2 = 9 /\
  (forall i j z, (i < 256)%nat -> (j < 256)%nat ->
     lookup2 P i j = Some z -> z <> C0 ->
     (INR j - circle_x aperture1) ^ 2 + (INR i - circle_y aperture1) ^ 2
       <= (circle_radius aperture1 / 3) ^ 2 \/
     (INR j - circle_x aperture2) ^ 2 + (INR i - circle_y aperture2) ^ 2
       <= (circle_radius aperture2 / 3) ^ 2) /\
  lookup2 P 128 133 = Some C0 /\
  inside_outline aperture1 (INR 133) (INR 128).
Proof.
  intros HK HP. destruct (mask_spectrum_lookup K HK) as (P0 & HP0 & Hlook).
  rewrite HP in HP0. injection HP0 as <-.
  split; [simpl; lra|]. split; [simpl; lra|]. split; [|split].
  - intros i j z Hi Hj Hz Hnz. rewrite (Hlook i j Hi Hj) in Hz.
    destruct (aperture (INR j) (INR i) 128 128 3) eqn:H1;
      [destruct (aperture (INR j) (INR i) 150 128 3) eqn:H2|].
    + simpl in Hz. congruence.
    + right. apply bool_decide_eq_false in H2. simpl. lra.
    + left. apply bool_decide_eq_false in H1. simpl. lra.
  - rewrite (Hlook 128%nat 133%nat) by lia.
    replace (INR 133) with 133 by (rewrite INR_numeral; reflexivity).
    replace (INR 128) with 128 by (rewrite INR_numeral; reflexivity).
    assert (H1 : aperture 133 128 128 128 3 = true) by (apply bool_decide_eq_true; lra).
    assert (H2 : aperture 133 128 150 128 3 = true) by (apply bool_decide_eq_true; lra).
    rewrite H1, H2. reflexivity.
  - unfold inside_outline.
    replace (INR 133) with 133 by (rewrite INR_numeral; reflexivity).
    replace (INR 128) with 128 by (rewrite INR_numeral; reflexivity).
    simpl. lra.
Qed.

Lemma drawn_outlines_wider_witness :
  exists P,
    mask_spectrum (replicate 256 (replicate 256 C0)) = Ok P /\
    lookup2 P 128 133 = Some C0.
Proof.
  destruct (mask_spectrum_lookup (replicate 256 (replicate 256 C0))) as (P & HP & _);
    [vm_compute; reflexivity|].
  exists P. split; [exact HP|].
  apply (drawn_outlines_wider (replicate 256 (replicate 256 C0)) P);
    [vm_compute; reflexivity|exact HP].
Defined.

(** ** plot_taylor_approximations *)


Lemma zip_with_map_same {A} (f : R -> R -> R) (g h : A -> R) (l : list A) :
  zip_with f (map g l) (map h l) = map (fun a => f (g a) (h a)) l.
Proof. induction l as [|a l IH]; simpl; [reflexivity|]. rewrite IH. reflexivity. Qed.

(** numpy's evaluation of a lambdified expression agrees with the value of
    the expression at each sample point. *)
Lemma lambdify_sound (xname : string) (e : Expr) (x : list R) (v : npval) :
  lambdify xname e (Array x) = Ok v ->
  match v with
  | Scalar r => forall xv, value_at xv e = r
  | Array ys => ys = map (fun xv => value_at xv e) x
  end.
Proof.
  revert v.
  induction e as [z|p q|r| | |s|a IHa b IHb|a IHa b IHb|a IHa n|f a IHa|a IHa]; simpl; intros v;
    try (intros [= <-]; reflexivity); try discriminate.
  - case_decide; [|discriminate]. intros [= <-]. symmetry. apply map_id.
  - destruct (lambdify xname a (Array x)) as [u|]; simpl; [|discriminate].
    destruct (lambdify xname b (Array x)) as [w|]; simpl; [|discriminate].
    specialize (IHa u eq_refl). specialize (IHb w eq_refl). intros [= <-].
    destruct u as [ra|ya], w as [rb|yb]; simpl; subst.
    + intros xv. rewrite IHa, IHb. reflexivity.
    + rewrite map_map. apply map_ext. intros xv. rewrite IHa. reflexivity.
    + rewrite map_map. apply map_ext. intros xv. rewrite IHb. reflexivity.
    + apply zip_with_map_same.
  - destruct (lambdify xname a (Array x)) as [u|]; simpl; [|discriminate].
    destruct (lambdify xname b (Array x)) as [w|]; simpl; [|discriminate].
    specialize (IHa u eq_refl). specialize (IHb w eq_refl). intros [= <-].
    destruct u as [ra|ya], w as [rb|yb]; simpl; subst.
    + intros xv. rewrite IHa, IHb. reflexivity.
    + rewrite map_map. apply map_ext. intros xv. rewrite IHa. reflexivity.
    + rewrite map_map. apply map_ext. intros xv. rewrite IHb. reflexivity.
    + apply zip_with_map_same.
  - destruct (lambdify xname a (Array x)) as [u|]; simpl; [|discriminate].
    specialize (IHa u eq_refl). intros [= <-].
    destruct u as [ra|ya]; simpl; subst.
    + intros xv. rewrite IHa. reflexivity.
    + rewrite map_map. reflexivity.
  - destruct (lambdify xname a (Array x)) as [u|]; simpl; [|discriminate].
    specialize (IHa u eq_refl). intros [= <-].
    destruct u as [ra|ya]; simpl; subst.
    + intros xv. rewrite IHa. destruct f; reflexivity.
    + rewrite map_map. apply map_ext. intros xv. destruct f; reflexivity.
Qed.

Lemma number_value_at (xv : R) (e : Expr) : is_Number e = true -> value_at xv e = number_value e.
Proof. destruct e; simpl; try discriminate; reflexivity. Qed.

Section PlotTaylorRuns.

Variable series : Expr -> Expr -> Expr -> Z -> Expr.



End PlotTaylorRuns.



Lemma lambdify_shape (e : Expr) (x : list R) :
  well_formed "x" e = true ->
  exists v, lambdify "x" e (Array x) = Ok v /\
            (is_constant e = false -> exists ys, v = Array ys).
Proof.
  induction e as [z|p q|r| | |s|a IHa b IHb|a IHa b IHb|a IHa n|f a IHa|a IHa]; simpl;
    try (intros _; eexists; split; [reflexivity|discriminate]); try discriminate.
  - intros Hs. apply bool_decide_eq_true in Hs. subst s.
    rewrite decide_True by reflexivity. eauto.
  - intros H. apply andb_prop in H as [Ha Hb].
    destruct (IHa Ha) as (u & -> & Hu), (IHb Hb) as (w & -> & Hw). simpl.
    eexists. split; [reflexivity|]. intros Hc. apply andb_false_iff in Hc as [Hc|Hc].
    + destruct (Hu Hc) as [ya ->]. destruct w; simpl; eauto.
    + destruct (Hw Hc) as [yb ->]. destruct u; simpl; eauto.
  - intros H. apply andb_prop in H as [Ha Hb].
    destruct (IHa Ha) as (u & -> & Hu), (IHb Hb) as (w & -> & Hw). simpl.
    eexists. split; [reflexivity|]. intros Hc. apply andb_false_iff in Hc as [Hc|Hc].
    + destruct (Hu Hc) as [ya ->]. destruct w; simpl; eauto.
    + destruct (Hw Hc) as [yb ->]. destruct u; simpl; eauto.
  - intros Ha. destruct (IHa Ha) as (u & -> & Hu). simpl.
    eexists. split; [reflexivity|]. intros Hc. destruct (Hu Hc) as [ya ->]. simpl. eauto.
  - intros Ha. destruct (IHa Ha) as (u & -> & Hu). simpl.
    eexists. split; [reflexivity|]. intros Hc. destruct (Hu Hc) as [ya ->]. simpl. eauto.
Qed.

(** A well-formed expression in which [x] occurs evaluates to the array of
    its values at the sample points. *)
Lemma lambdify_array (e : Expr) (x : list R) :
  well_formed "x" e = true -> is_constant e = false ->
  lambdify "x" e (Array x) = Ok (Array (map (fun xv => value_at xv e) x)).
Proof.
  intros Hw Hc. destruct (lambdify_shape e x Hw) as (v & Hv & Harr).
  destruct (Harr Hc) as [ys ->]. rewrite Hv.
  apply lambdify_sound in Hv. rewrite Hv. reflexivity.
Qed.

Section PlotTaylorSuccess.

Variable series : Expr -> Expr -> Expr -> Z -> Expr.

Lemma loop_body_plottable x fx x0 apps n fig :
  let app := removeO (series fx (Symbol "x") x0 n) in
  plottable app = true ->
  loop_body series x (Symbol "x") fx x0 apps n fig
  = (Ok (<[n := app]> apps), add_lines fig [taylor_curve series x fx x0 n]).
Proof.
  intros app Hp. unfold loop_body, taylor_curve. fold app.
  unfold plottable in Hp. destruct (is_Number app) eqn:Hnum.
  - unfold mbind, M_bind, mret, M_ret, plot. simpl as_1d.
    rewrite decide_True by (unfold filled_like; rewrite length_map; reflexivity).
    unfold add_lines, filled_like.
    rewrite (map_ext (fun _ => number_value app) (fun xv => value_at xv app));
      [reflexivity|].
    intros xv. symmetry. apply number_value_at, Hnum.
  - simpl in Hp. apply andb_prop in Hp as [Hw Hc]. apply negb_true_iff in Hc.
    unfold mbind, M_bind, lift. rewrite (lambdify_array app x Hw Hc).
    unfold plot. simpl as_1d. rewrite decide_True by (rewrite length_map; reflexivity).
    reflexivity.
Qed.


Lemma run_to_loop (f : Expr -> Expr) x0 orders xrange yrange npts fig x c :
  sample_points xrange npts = Ok x ->
  expansion_point x0 x = Ok c ->
  well_formed "x" (f (Symbol "x")) = true ->
  is_constant (f (Symbol "x")) = false ->
  plot_taylor_approximations series (PyFunction f) x0 orders xrange yrange npts fig
  = (for_orders series x (Symbol "x") (f (Symbol "x")) c orders ∅ ≫= fun _ =>
       match yrange with Some r => set_ylim r | None => mret () end;; grid;; legend 0.8)
      (add_lines fig [function_curve x (f (Symbol "x"))]).
Proof.
  intros Hx Hc Hw Hnc. unfold plot_taylor_approximations.
  change (negb (callable (PyFunction f))) with false. cbv iota.
  unfold sample_points in Hx. unfold expansion_point in Hc.
  unfold mbind, M_bind, lift, mret, M_ret. rewrite Hx. cbv beta iota.
  destruct x0 as [v|]; [injection Hc as ->|rewrite Hc];
    simpl call; cbv beta iota zeta;
    rewrite (lambdify_array _ x Hw Hnc);
    unfold plot at 1; simpl as_1d;
    rewrite decide_True by (rewrite length_map; reflexivity);
    reflexivity.
Qed.

End PlotTaylorSuccess.



(** X15.  A constant approximation that is no [Number] stops the run, on any
    sample with other than one point: if the orders before [n] are
    plottable and the approximation of order [n] is a constant that is not
    a [Number], the run ends at [n] with the ValueError of [plt.plot]; the
    figure then holds the curve of [func] and the curves of the orders before
    [n], and neither y-limits, grid nor legend have been touched. *)
Theorem plot_taylor_stops_at_constant
    (series : Expr -> Expr -> Expr -> Z -> Expr)
    (f : Expr -> Expr) (x0 : option Expr) (before after : list Z) (n : Z)
    (xrange : xrange_arg) (yrange : option (R * R)) (npts : nat) (fig : figure)
    (x : list R) (c : Expr) :
  sample_points xrange npts = Ok x ->
  expansion_point x0 x = Ok c ->
  length x <> 1%nat ->
  well_formed "x" (f (Symbol "x")) = true ->
  is_constant (f (Symbol "x")) = false ->
  Forall (fun m => plottable (removeO (series (f (Symbol "x")) (Symbol "x") c m)) = true)
         before ->
  is_constant (removeO (series (f (Symbol "x")) (Symbol "x") c n)) = true ->
  is_Number (removeO (series (f (Symbol "x")) (Symbol "x") c n)) = false ->
  plot_taylor_approximations series (PyFunction f) x0 (before ++ n :: after)
    xrange yrange npts fig
  = (Err (ValueError "x and y must have same first dimension"),
     add_lines fig (function_curve x (f (Symbol "x"))
                    :: map (taylor_curve series x (f (Symbol "x")) c) before)).
Proof.
  intros Hx Hc Hlen Hw Hnc Hbefore Hconst Hnum.
  rewrite (run_to_loop series f x0 _ xrange yrange npts fig x c Hx Hc Hw Hnc).
  set (fig1 := add_lines fig [function_curve x (f (Symbol "x"))]).
  assert (Hloop : forall apps fig0,
            for_orders series x (Symbol "x") (f (Symbol "x")) c (before ++ n :: after) apps fig0
            = (Err (ValueError "x and y must have same first dimension"),
               add_lines fig0 (map (taylor_curve series x (f (Symbol "x")) c) before))).
  { clear fig1. induction before as [|m before IH]; intros apps fig0; simpl.
    - unfold mbind, M_bind. rewrite loop_body_constant by assumption.
      unfold add_lines. simpl. rewrite app_nil_r. destruct fig0; reflexivity.
    - apply Forall_cons in Hbefore as [Hm Hbefore]. unfold mbind, M_bind.
      rewrite loop_body_plottable by exact Hm. rewrite (IH Hbefore).
      unfold add_lines. simpl. rewrite <- app_assoc. reflexivity. }
  unfold mbind at 1, M_bind at 1. rewrite Hloop.
  unfold fig1, add_lines. simpl. rewrite <- app_assoc. reflexivity.
Qed.

Lemma plot_taylor_stops_at_constant_witness :
  plot_taylor_approximations series_affine (PyFunction (fun x => Add x Pi))
    (Some (Integer 0)) ([2%Z] ++ 1%Z :: [3%Z]) (XBounds [0; 1]) None 3 empty_figure
  = (Err (ValueError "x and y must have same first dimension"),
     add_lines empty_figure
       (function_curve (linspace 0 1 3) (Add (Symbol "x") Pi)
        :: map (taylor_curve series_affine (linspace 0 1 3) (Add (Symbol "x") Pi) (Integer 0))
               [2%Z])).
Proof.
  apply (plot_taylor_stops_at_constant series_affine (fun x => Add x Pi) (Some (Integer 0))
           [2%Z] [3%Z] 1 (XBounds [0; 1]) None 3 empty_figure (linspace 0 1 3) (Integer 0));
    try reflexivity.
  - simpl. lia.
  - repeat constructor.
Defined.

(** X16.  Two inputs that end a run before anything is drawn, both with
    IndexError and an untouched figure: an [xrange] list or tuple with fewer
    than two bounds, and an empty set of sample points when [x0] is omitted
    (the helper then reads [x[0]]). *)
Theorem plot_taylor_index_errors
    (series : Expr -> Expr -> Expr -> Z -> Expr)
    (f : Expr -> Expr) (x0 : option Expr) (orders : list Z)
    (xrange : xrange_arg) (yrange : option (R * R)) (npts : nat) (fig : figure) :
  (forall l, xrange = XBounds l -> (length l < 2)%nat ->
     plot_taylor_approximations series (PyFunction f) x0 orders xrange yrange npts fig
     = (Err (IndexError "index out of range"), fig)) /\
  (sample_points xrange npts = Ok [] ->
     plot_taylor_approximations series (PyFunction f) None orders xrange yrange npts fig
     = (Err (IndexError "index out of range"), fig)).
Proof.
  split.
  - intros l -> Hl. unfold plot_taylor_approximations.
    change (negb (callable (PyFunction f))) with false. cbv iota.
    unfold mbind, M_bind, lift.
    destruct l as [|a [|b l]]; simpl in Hl; try lia; reflexivity.
  - intros Hx. unfold plot_taylor_approximations, sample_points in *.
    change (negb (callable (PyFunction f))) with false. cbv iota.
    unfold mbind, M_bind, lift. rewrite Hx. reflexivity.
Qed.

Lemma plot_taylor_index_errors_witness :
  plot_taylor_approximations series_affine (PyFunction (fun x => x)) None [2%Z]
    (XBounds [0; 1]) None 0 empty_figure
  = (Err (IndexError "index out of range"), empty_figure).
Proof.
  apply (plot_taylor_index_errors series_affine (fun x => x) None [2%Z]
           (XBounds [0; 1]) None 0 empty_figure).
  reflexivity.
Defined.

Lemma index_linspace_0 (a b : R) (npts : nat) :
  (0 < npts)%nat -> index (linspace a b npts) 0 = Ok a.
Proof.
  intros Hn. destruct npts as [|[|n]]; [lia|reflexivity|].
  unfold index, linspace. simpl. f_equal. ring.
Qed.

(** X17.  The default expansion point is the lower bound of the range, as
    the docstring says ("If not given, x0=xrange[0]"): with at least one
    sample point, a call that omits [x0] runs exactly as the call with
    [x0 = xrange[0]], read as a float. *)
Theorem plot_taylor_default_x0
    (series : Expr -> Expr -> Expr -> Z -> Expr)
    (func : pyobj) (orders : list Z) (a b : R) (rest : list R)
    (yrange : option (R * R)) (npts : nat) (fig : figure) :
  (0 < npts)%nat ->
  plot_taylor_approximations series func None orders (XBounds (a :: b :: rest)) yrange npts fig
  = plot_taylor_approximations series func (Some (Float a)) orders
      (XBounds (a :: b :: rest)) yrange npts fig.
Proof.
  intros Hn. unfold plot_taylor_approximations.
  destruct (negb (callable func)); [reflexivity|].
  unfold mbind, M_bind, lift, mret, M_ret. simpl index at 1 2. simpl rbind.
  cbv beta iota. rewrite (index_linspace_0 a b npts Hn). reflexivity.
Qed.

Lemma plot_taylor_default_x0_witness :
  plot_taylor_approximations series_affine (PyFunction (fun x => Add x Pi)) None [2%Z]
    (XBounds [0; 1]) None 3 empty_figure
  = plot_taylor_approximations series_affine (PyFunction (fun x => Add x Pi))
      (Some (Float 0)) [2%Z] (XBounds [0; 1]) None 3 empty_figure.
Proof.
  apply (plot_taylor_default_x0 series_affine (PyFunction (fun x => Add x Pi)) [2%Z] 0 1 []
           None 3 empty_figure).
  lia.
Defined.

(** ** The sampled signal *)

Lemma ceil_IZR (z : Z) : ceil (IZR z) = z.
Proof.
  unfold ceil. rewrite <- (tech_up (- IZR z) (1 - z)).
  - lia.
  - rewrite minus_IZR. lra.
  - rewrite minus_IZR. lra.
Qed.

Lemma length_timeVector : length timeVector = 150%nat.
Proof.
  unfold timeVector, arange_step, samplingInterval, samplingRate.
  rewrite length_map, length_seq.
  replace ((1 - 0) / (1 / 150)) with (IZR 150) by field.
  rewrite ceil_IZR. reflexivity.
Qed.

Lemma lookup_timeVector (i : nat) :
  (i < 150)%nat -> timeVector !! i = Some (INR i / 150).
Proof.
  intros Hi. pose proof length_timeVector as Hlen.
  unfold timeVector, arange_step, samplingInterval, samplingRate in *.
  rewrite length_map, length_seq in Hlen. rewrite Hlen.
  rewrite list_lookup_fmap, lookup_seq_lt by exact Hi. simpl. f_equal. field.
Qed.

Lemma sin_period_turns (t : R) (k : nat) : sin (2 * INR k * PI - t) = - sin t.
Proof.
  replace (2 * INR k * PI - t) with (- t + 2 * INR k * PI) by ring.
  rewrite sin_period. apply sin_neg.
Qed.

(** The value of [ourSignal] at the time [t]. *)
Lemma lookup_ourSignal (i : nat) :
  (i < 150)%nat ->
  ourSignal !! i
  = Some (sin (2 * PI * 10 * (INR i / 150)) + 0.5 * sin (2 * PI * (2 * 10) * (INR i / 150))).
Proof.
  intros Hi. unfold ourSignal, signalFrequency.
  rewrite list_lookup_fmap, (lookup_timeVector i Hi). reflexivity.
Qed.

(** X18.  The sampled signal: [timeVector] holds the 150 times [i / 150],
    and [ourSignal], sampled on it, stays within [-1.5, 1.5], repeats every
    15 samples (the window holds exactly 10 periods), and is odd about the
    window: sample [150 - i] is the opposite of sample [i]. *)
Theorem ourSignal_samples (i : nat) :
  (i < 150)%nat ->
  length timeVector = 150%nat /\ length ourSignal = 150%nat /\
  timeVector !! i = Some (INR i / 150) /\
  exists s,
    ourSignal !! i = Some s /\
    Rabs s <= 1.5 /\
    ((i + 15 < 150)%nat -> ourSignal !! (i + 15)%nat = Some s) /\
    ((0 < i)%nat -> ourSignal !! (150 - i)%nat = Some (- s)).
Proof.
  intros Hi. split; [apply length_timeVector|].
  split; [unfold ourSignal; rewrite length_map; apply length_timeVector|].
  split; [apply lookup_timeVector, Hi|].
  eexists. split; [apply lookup_ourSignal, Hi|]. split; [|split].
  - pose proof (SIN_bound (2 * PI * 10 * (INR i / 150))) as [H1 H2].
    pose proof (SIN_bound (2 * PI * (2 * 10) * (INR i / 150))) as [H3 H4].
    apply Rabs_le. lra.
  - intros Hi'. rewrite lookup_ourSignal by exact Hi'. f_equal.
    rewrite plus_INR. replace (INR 15) with 15 by (rewrite INR_numeral; reflexivity).
    replace (2 * PI * 10 * ((INR i + 15) / 150))
      with (2 * PI * 10 * (INR i / 150) + 2 * PI) by field.
    replace (2 * PI * (2 * 10) * ((INR i + 15) / 150))
      with (2 * PI * (2 * 10) * (INR i / 150) + 4 * PI) by field.
    rewrite sin_shift_2PI, sin_shift_4PI. reflexivity.
  - intros Hpos. rewrite lookup_ourSignal by lia. f_equal.
    rewrite minus_INR by lia. replace (INR 150) with 150 by (rewrite INR_numeral; reflexivity).
    replace (2 * PI * 10 * ((150 - INR i) / 150))
      with (2 * INR 10 * PI - 2 * PI * 10 * (INR i / 150))
      by (replace (INR 10) with 10 by (rewrite INR_numeral; reflexivity); field).
    replace (2 * PI * (2 * 10) * ((150 - INR i) / 150))
      with (2 * INR 20 * PI - 2 * PI * (2 * 10) * (INR i / 150))
      by (replace (INR 20) with 20 by (rewrite INR_numeral; reflexivity); field).
    rewrite !sin_period_turns. ring.
Qed.

Lemma ourSignal_samples_witness :
  exists s, ourSignal !! 7%nat = Some s /\ ourSignal !! 22%nat = Some s.
Proof.
  destruct (ourSignal_samples 7) as (_ & _ & _ & s & Hs & _ & Hper & _); [lia|].
  exists s. split; [exact Hs|]. apply Hper. lia.
Defined.

(** ** The top-hat function *)

(** X19.  The top-hat is 1 exactly on the half-open interval [-1, 1) and 0
    elsewhere: it is 1 at -1 and 0 at 1, so it is even at every point except
    the two edges. *)
Theorem top_hat_support (x : R) :
  (top_hat x = 1 <-> -1 <= x < 1) /\
  (top_hat x = 0 <-> x < -1 \/ 1 <= x) /\
  top_hat (-1) = 1 /\ top_hat 1 = 0 /\
  (x <> 1 -> x <> -1 -> top_hat (- x) = top_hat x).
Proof.
  unfold top_hat. repeat split; repeat case_decide; intros; lra.
Qed.

(** ** Central differences *)

(** X20.  The two grouped expressions of the difference section are what
    the notebook prints, so setting them to zero gives the central
    differences: for [h <> 0] the first vanishes exactly when
    [f'(c) = (f(c+h) - f(c-h)) / (2h)] and the second exactly when
    [f''(c) = (f(c+h) - 2 f(c) + f(c-h)) / h^2].  On a quadratic
    [a x^2 + b x + e], with its derivatives [2 a c + b] and [2 a], both
    expressions are exactly zero: the central differences are exact there. *)
Theorem central_differences (f : R -> R) (f1 f2 c h : R) :
  h <> 0 ->
  difference_of_expansions f f1 f2 c h = - 2 * h * f1 - f (c - h) + f (c + h) /\
  sum_of_expansions f f1 f2 c h = h ^ 2 * f2 + 2 * f c - f (c - h) - f (c + h) /\
  (difference_of_expansions f f1 f2 c h = 0 <-> f1 = (f (c + h) - f (c - h)) / (2 * h)) /\
  (sum_of_expansions f f1 f2 c h = 0 <-> f2 = (f (c + h) - 2 * f c + f (c - h)) / h ^ 2) /\
  (forall a b e : R,
     difference_of_expansions (fun x => a * x ^ 2 + b * x + e) (2 * a * c + b) (2 * a) c h = 0 /\
     sum_of_expansions (fun x => a * x ^ 2 + b * x + e) (2 * a * c + b) (2 * a) c h = 0).
Proof.
  intros Hh.
  assert (Hquad : forall a b e : R,
     difference_of_expansions (fun x => a * x ^ 2 + b * x + e) (2 * a * c + b) (2 * a) c h = 0 /\
     sum_of_expansions (fun x => a * x ^ 2 + b * x + e) (2 * a * c + b) (2 * a) c h = 0).
  { intros a b e.
    unfold difference_of_expansions, sum_of_expansions, taylorExpansionMinus,
      taylorExpansionPlus, taylor_order3.
    split; field. }
  assert (Hd : difference_of_expansions f f1 f2 c h = - 2 * h * f1 - f (c - h) + f (c + h)).
  { unfold difference_of_expansions, taylorExpansionMinus, taylorExpansionPlus, taylor_order3.
    field. }
  assert (Hs : sum_of_expansions f f1 f2 c h = h ^ 2 * f2 + 2 * f c - f (c - h) - f (c + h)).
  { unfold sum_of_expansions, taylorExpansionMinus, taylorExpansionPlus, taylor_order3.
    field. }
  split; [exact Hd|]. split; [exact Hs|]. rewrite Hd, Hs.
  assert (Hh2 : h ^ 2 <> 0) by (apply pow_nonzero, Hh).
  split; [|split; [|exact Hquad]]; split; intros H.
  - apply Rmult_eq_reg_l with (r := 2 * h); [|lra]. field_simplify; [|exact Hh]. lra.
  - rewrite H. field. exact Hh.
  - apply Rmult_eq_reg_l with (r := h ^ 2); [|exact Hh2]. field_simplify; [|exact Hh]. lra.
  - rewrite H. field. exact Hh.
Qed.

Lemma central_differences_witness :
  difference_of_expansions (fun x => x ^ 2) 6 2 3 1 = 0 <->
  6 = ((3 + 1) ^ 2 - (3 - 1) ^ 2) / (2 * 1).
Proof.
  apply (central_differences (fun x => x ^ 2) 6 2 3 1). lra.
Defined.
